(** * Wayfinding core: graph and constrained breadth-first search

    A shallow embedding of [src/core/pathfinding.js] (classes
    [WayfindingGraph] and [Pathfinder], and [determineNodeType]) and of the
    first two passes of [GraphBuilder] in [src/data/loader.js], together
    with the properties of the routing rules.

    Conventions of the embedding:
    - a JavaScript [Map] is a [gmap]; a [Set] that is only tested for
      membership and size is a [gset]; the neighbour [Set] of a node is a
      duplicate-free [list] kept in insertion order, because the search
      enumerates it;
    - a method that mutates the graph returns the graph it leaves behind
      together with its completion ([Return] or [Throw]), so that the state
      left by a throwing call is visible;
    - the members of [NODE_TYPES] form the inductive type [NodeType];
    - a string is the sequence of the bytes of its UTF-8 encoding. *)

From Stdlib Require Import QArith.
From stdpp Require Import gmap strings list fin_maps.

Local Open Scope string_scope.
Local Open Scope list_scope.
Local Open Scope nat_scope.

(** ** Values and completions *)

(** [NODE_TYPES]: the five type tags. Each of them is a non-empty string in
    the source, hence truthy. *)
Inductive NodeType := WAYPOINT | DI_BOX | CABINET | FOSSIL | UNKNOWN.

#[global] Instance NodeType_eq_dec : EqDecision NodeType.
Proof. solve_decision. Defined.

Definition NodeType_to_nat (t : NodeType) : nat :=
  match t with
  | WAYPOINT => 0 | DI_BOX => 1 | CABINET => 2 | FOSSIL => 3 | UNKNOWN => 4
  end.

Definition NodeType_of_nat (n : nat) : option NodeType :=
  match n with
  | 0 => Some WAYPOINT | 1 => Some DI_BOX | 2 => Some CABINET
  | 3 => Some FOSSIL | 4 => Some UNKNOWN | _ => None
  end.

#[global] Instance NodeType_countable : Countable NodeType.
Proof.
  apply (inj_countable NodeType_to_nat NodeType_of_nat).
  intros []; reflexivity.
Defined.

(** Untyped argument values, for the parameters the source validates at run
    time ([nodeId] and [coordinates] of [addNode]). Numbers are rationals,
    with [NaN] apart. *)
#[warnings="-register-all"]
Inductive jsval :=
| JUndefined
| JNull
| JBool (b : bool)
| JNumber (q : Q)
| JNaN
| JString (s : string)
| JArray (elems : list jsval)
| JObject.

(** Truthiness, as tested by [if (coordinates)]. *)
Definition truthy (v : jsval) : bool :=
  match v with
  | JUndefined | JNull | JNaN => false
  | JBool b => b
  | JNumber q => negb (Qeq_bool q 0)
  | JString s => negb (String.eqb s "")
  | JArray _ | JObject => true
  end.

(** [Array.isArray]. *)
Definition isArray (v : jsval) : bool :=
  match v with JArray _ => true | _ => false end.

(** [typeof v === 'number']. *)
Definition isNumber (v : jsval) : bool :=
  match v with JNumber _ | JNaN => true | _ => false end.

(** [v.length] of a value already known to be an array. *)
Definition array_length (v : jsval) : nat :=
  match v with JArray l => length l | _ => 0 end.

(** Strings are sequences of bytes, read as UTF-8. [whitespace_prefix s] is
    the rest of [s] after one leading character that
    [String.prototype.trim] removes (the WhiteSpace and LineTerminator code
    points), if [s] starts with one:
    U+0009..U+000D and U+0020 (one byte);
    U+00A0 (C2 A0);
    U+1680 (E1 9A 80);
    U+2000..U+200A, U+2028, U+2029, U+202F (E2 80 80..8A, A8, A9, AF);
    U+205F (E2 81 9F); U+3000 (E3 80 80); U+FEFF (EF BB BF). *)
Definition whitespace_prefix (s : string) : option string :=
  match s with
  | EmptyString => None
  | String a s1 =>
      let a := Ascii.nat_of_ascii a in
      if (((9 <=? a) && (a <=? 13)) || (a =? 32))%nat then Some s1
      else
        match s1 with
        | EmptyString => None
        | String b s2 =>
            let b := Ascii.nat_of_ascii b in
            if ((a =? 194) && (b =? 160))%nat then Some s2
            else
              match s2 with
              | EmptyString => None
              | String c s3 =>
                  let c := Ascii.nat_of_ascii c in
                  if ((a =? 225) && (b =? 154) && (c =? 128))%nat then Some s3
                  else if ((a =? 226) && (b =? 128)
                           && (((128 <=? c) && (c <=? 138)) || (c =? 168)
                               || (c =? 169) || (c =? 175)))%nat then Some s3
                  else if ((a =? 226) && (b =? 129) && (c =? 159))%nat then Some s3
                  else if ((a =? 227) && (b =? 128) && (c =? 128))%nat then Some s3
                  else if ((a =? 239) && (b =? 187) && (c =? 191))%nat then Some s3
                  else None
              end
        end
  end.

(** Leading white space removed, at most [fuel] characters of it. *)
Fixpoint trim_start_from (fuel : nat) (s : string) : string :=
  match fuel with
  | O => s
  | S fuel' =>
      match whitespace_prefix s with
      | Some rest => trim_start_from fuel' rest
      | None => s
      end
  end.

Definition trim_start (s : string) : string := trim_start_from (String.length s) s.

(** [s] consists of white space only. *)
Fixpoint all_whitespace_from (fuel : nat) (s : string) : bool :=
  match s with
  | EmptyString => true
  | String _ _ =>
      match fuel with
      | O => false
      | S fuel' =>
          match whitespace_prefix s with
          | Some rest => all_whitespace_from fuel' rest
          | None => false
          end
      end
  end.

Definition all_whitespace (s : string) : bool :=
  all_whitespace_from (String.length s) s.

(** Trailing white space removed: the string is cut where what follows is
    white space only. *)
Fixpoint trim_end (s : string) : string :=
  match s with
  | EmptyString => EmptyString
  | String c s' => if all_whitespace s then EmptyString else String c (trim_end s')
  end.

Definition trim (s : string) : string := trim_end (trim_start s).

(** The [code] field of a [PathfindingError]. *)
Inductive ErrorCode :=
| PATHFINDING_ERROR | INVALID_NODE_ID | INVALID_COORDINATES
| NODE_NOT_FOUND | INVALID_GRAPH.

(** What a call can throw: a [PathfindingError] with its message and code,
    or the runtime's [TypeError] (a method called on [undefined]). *)
Inductive exn :=
| PathfindingError (message : string) (code : ErrorCode)
| TypeError.

Inductive completion (A : Type) :=
| Return (a : A)
| Throw (e : exn).
Arguments Return {A} a.
Arguments Throw {A} e.

(** ** WayfindingGraph *)

Record WayfindingGraph := mkGraph {
  nodes : gset string;
  adjacencyList : gmap string (list string);
  nodeTypes : gmap string NodeType;
  nodeCoordinates : gmap string jsval;
  walkingPaths : list jsval;
  fixturePolygons : gmap string jsval
}.

(** [new WayfindingGraph()]. *)
Definition empty_graph : WayfindingGraph :=
  mkGraph ∅ ∅ ∅ ∅ [] ∅.

(** [Set.prototype.add] on an insertion-ordered set. *)
Definition ordered_add (x : string) (l : list string) : list string :=
  if bool_decide (x ∈ l) then l else l ++ [x].

Definition addNode (g : WayfindingGraph) (nodeId : jsval) (type : NodeType)
    (coordinates : jsval) : WayfindingGraph * completion unit :=
  match nodeId with
  | JString id =>
      if String.eqb (trim id) "" then
        (g, Throw (PathfindingError "Node ID must be a non-empty string" INVALID_NODE_ID))
      else
        let g1 := mkGraph ({[id]} ∪ nodes g) (adjacencyList g)
                    (<[id := type]> (nodeTypes g)) (nodeCoordinates g)
                    (walkingPaths g) (fixturePolygons g) in
        let finish (h : WayfindingGraph) :=
          match adjacencyList h !! id with
          | Some _ => (h, Return tt)
          | None =>
              (mkGraph (nodes h) (<[id := []]> (adjacencyList h)) (nodeTypes h)
                 (nodeCoordinates h) (walkingPaths h) (fixturePolygons h),
               Return tt)
          end in
        if truthy coordinates then
          if negb (isArray coordinates) || negb (array_length coordinates =? 2)%nat then
            (g1, Throw (PathfindingError
                          "Coordinates must be an array of [longitude, latitude]"
                          INVALID_COORDINATES))
          else
            finish (mkGraph (nodes g1) (adjacencyList g1) (nodeTypes g1)
                      (<[id := coordinates]> (nodeCoordinates g1))
                      (walkingPaths g1) (fixturePolygons g1))
        else finish g1
  | _ =>
      (g, Throw (PathfindingError "Node ID must be a non-empty string" INVALID_NODE_ID))
  end.

Definition hasNode (g : WayfindingGraph) (nodeId : string) : bool :=
  bool_decide (nodeId ∈ nodes g).

Definition addEdge (g : WayfindingGraph) (sourceId targetId : string)
    (bidirectional : bool) : WayfindingGraph * completion unit :=
  if negb (hasNode g sourceId) then
    (g, Throw (PathfindingError
                 ("Source node '" +:+ sourceId +:+ "' not found in graph") NODE_NOT_FOUND))
  else if negb (hasNode g targetId) then
    (g, Throw (PathfindingError
                 ("Target node '" +:+ targetId +:+ "' not found in graph") NODE_NOT_FOUND))
  else
    match adjacencyList g !! sourceId with
    | None => (g, Throw TypeError)
    | Some ns =>
        let g1 := mkGraph (nodes g)
                    (<[sourceId := ordered_add targetId ns]> (adjacencyList g))
                    (nodeTypes g) (nodeCoordinates g) (walkingPaths g)
                    (fixturePolygons g) in
        if bidirectional then
          match adjacencyList g1 !! targetId with
          | None => (g1, Throw TypeError)
          | Some nt =>
              (mkGraph (nodes g1)
                 (<[targetId := ordered_add sourceId nt]> (adjacencyList g1))
                 (nodeTypes g1) (nodeCoordinates g1) (walkingPaths g1)
                 (fixturePolygons g1),
               Return tt)
          end
        else (g1, Return tt)
    end.

(** [this.nodeTypes.get(nodeId) || NODE_TYPES.UNKNOWN]: every tag is truthy,
    so the default is taken exactly when the id has no entry. *)
Definition getNodeType (g : WayfindingGraph) (nodeId : string) : NodeType :=
  match nodeTypes g !! nodeId with
  | Some t => t
  | None => UNKNOWN
  end.

Definition getNodeCoordinates (g : WayfindingGraph) (nodeId : string) : jsval :=
  match nodeCoordinates g !! nodeId with
  | Some c => if truthy c then c else JNull
  | None => JNull
  end.

Definition getNeighbors (g : WayfindingGraph) (nodeId : string) : list string :=
  match adjacencyList g !! nodeId with
  | Some neighbors => neighbors
  | None => []
  end.

Record Statistics := mkStatistics {
  totalNodes : nat;
  nodeTypesCount : gmap NodeType nat;
  totalEdges : Q;
  walkingPathsCount : nat;
  fixturePolygonsCount : nat
}.

(** [typeCount[type] = (typeCount[type] || 0) + 1] over the stored tags. *)
Definition typeCount (g : WayfindingGraph) : gmap NodeType nat :=
  map_fold (fun _ type acc => <[type := (default 0 (acc !! type) + 1)%nat]> acc)
    ∅ (nodeTypes g).

(** The [reduce] over the neighbour sets. *)
Definition neighborSum (g : WayfindingGraph) : nat :=
  map_fold (fun _ neighbors sum => (sum + length neighbors)%nat) 0%nat
    (adjacencyList g).

Definition getStatistics (g : WayfindingGraph) : Statistics :=
  mkStatistics (size (nodes g)) (typeCount g)
    (inject_Z (Z.of_nat (neighborSum g)) / 2)%Q
    (length (walkingPaths g)) (size (fixturePolygons g)).

(** ** Pathfinder *)

Definition _isFixtureType (nodeType : NodeType) : bool :=
  bool_decide (nodeType = DI_BOX) || bool_decide (nodeType = CABINET)
  || bool_decide (nodeType = FOSSIL).

Definition _canVisitNeighbor (currentType neighborType : NodeType)
    (allowDirectFixtureConnections : bool) : bool :=
  if bool_decide (currentType = WAYPOINT) && bool_decide (neighborType = WAYPOINT)
  then true
  else if _isFixtureType currentType && bool_decide (neighborType = WAYPOINT)
  then true
  else if bool_decide (currentType = WAYPOINT) && _isFixtureType neighborType
  then true
  else if _isFixtureType currentType && _isFixtureType neighborType
  then false
  else if bool_decide (currentType = UNKNOWN) || bool_decide (neighborType = UNKNOWN)
  then allowDirectFixtureConnections
  else false.

(** The [options] object of [findPath], with its defaults. [maxDepth] is an
    integer iteration bound. *)
Record Options := mkOptions {
  allowDirectFixtureConnections : bool;
  maxDepth : Z;
  excludeNodes : gset string
}.

Definition default_options : Options := mkOptions false 1000 ∅.

(** State of the search between two neighbours: either the target was
    reached and [findPath] returns, or the loop goes on. *)
Inductive explored :=
| Found (newPath : list string)
| Continue (visited : gset string) (queue : list (list string)).

(** The [for (const neighbor of ...)] loop of one expansion. *)
Fixpoint exploreNeighbors (g : WayfindingGraph) (targetId : string) (opts : Options)
    (currentPath : list string) (currentNodeType : NodeType)
    (neighbors : list string) (visited : gset string)
    (queue : list (list string)) : explored :=
  match neighbors with
  | [] => Continue visited queue
  | neighbor :: rest =>
      if bool_decide (neighbor ∈ visited) || bool_decide (neighbor ∈ excludeNodes opts)
      then exploreNeighbors g targetId opts currentPath currentNodeType rest visited queue
      else
        let neighborType := getNodeType g neighbor in
        if negb (_canVisitNeighbor currentNodeType neighborType
                   (allowDirectFixtureConnections opts))
        then exploreNeighbors g targetId opts currentPath currentNodeType rest visited queue
        else
          let newPath := currentPath ++ [neighbor] in
          if String.eqb neighbor targetId then Found newPath
          else exploreNeighbors g targetId opts currentPath currentNodeType rest
                 ({[neighbor]} ∪ visited) (queue ++ [newPath])
  end.

(** The [while (queue.length > 0 && iterations < maxDepth)] loop;
    [budget] is [maxDepth - iterations]. A path in the queue is never empty;
    were it, [currentNode] would be [undefined], of type [UNKNOWN] and
    without neighbours. *)
Fixpoint searchLoop (g : WayfindingGraph) (targetId : string) (opts : Options)
    (budget : nat) (visited : gset string) (queue : list (list string))
    : option (list string) :=
  match budget with
  | O => None
  | S budget' =>
      match queue with
      | [] => None
      | currentPath :: queue' =>
          match last currentPath with
          | None => searchLoop g targetId opts budget' visited queue'
          | Some currentNode =>
              let currentNodeType := getNodeType g currentNode in
              match exploreNeighbors g targetId opts currentPath currentNodeType
                      (getNeighbors g currentNode) visited queue' with
              | Found newPath => Some newPath
              | Continue visited' queue'' =>
                  searchLoop g targetId opts budget' visited' queue''
              end
          end
      end
  end.

(** [findPath]: [Return None] is the source's [null]. *)
Definition findPath (g : WayfindingGraph) (sourceId targetId : string)
    (opts : Options) : completion (option (list string)) :=
  if negb (hasNode g sourceId) then
    Throw (PathfindingError
             ("Source node '" +:+ sourceId +:+ "' not found in graph") NODE_NOT_FOUND)
  else if negb (hasNode g targetId) then
    Throw (PathfindingError
             ("Target node '" +:+ targetId +:+ "' not found in graph") NODE_NOT_FOUND)
  else if String.eqb sourceId targetId then Return (Some [sourceId])
  else
    Return (searchLoop g targetId opts (Z.to_nat (maxDepth opts))
              {[sourceId]} [[sourceId]]).

(** The [for (let j = 1; j < path.length - 1; j++) visited.add(path[j])]
    loop of [findMultiplePaths]. *)
Definition markIntermediate (path : list string) (visited : gset string) : gset string :=
  foldl (fun vis j =>
           match path !! j with
           | Some x => {[x]} ∪ vis
           | None => vis
           end)
    visited (seq 1 (length path - 2)).

(** The [for (let i = 0; i < maxPaths; i++)] loop; [remaining] is
    [maxPaths - i]. The caller's [excludeNodes] is overridden by [visited]. *)
Fixpoint multiLoop (g : WayfindingGraph) (sourceId targetId : string)
    (opts : Options) (remaining : nat) (visited : gset string)
    (paths : list (list string)) : completion (list (list string)) :=
  match remaining with
  | O => Return paths
  | S remaining' =>
      match findPath g sourceId targetId
              (mkOptions (allowDirectFixtureConnections opts) (maxDepth opts) visited) with
      | Throw e => Throw e
      | Return None => Return paths
      | Return (Some path) =>
          multiLoop g sourceId targetId opts remaining'
            (markIntermediate path visited) (paths ++ [path])
      end
  end.

Definition findMultiplePaths (g : WayfindingGraph) (sourceId targetId : string)
    (maxPaths : Z) (opts : Options) : completion (list (list string)) :=
  multiLoop g sourceId targetId opts (Z.to_nat maxPaths) ∅ [].

(** ** Walks *)

(** [hops R p]: every two consecutive nodes of [p] are related by [R]. *)
Definition hops (R : string → string → Prop) (p : list string) : Prop :=
  ∀ i u v, p !! i = Some u → p !! S i = Some v → R u v.

(** One hop the search may take under [opts]: a graph edge towards a node
    that is not excluded, allowed by the routing predicate. *)
Definition allowed (g : WayfindingGraph) (opts : Options) (u v : string) : Prop :=
  (v ∈ getNeighbors g u) ∧ (v ∉ excludeNodes opts) ∧
  _canVisitNeighbor (getNodeType g u) (getNodeType g v)
    (allowDirectFixtureConnections opts) = true.

(** A walk of allowed hops that starts at [s]. *)
Definition walk_from (g : WayfindingGraph) (opts : Options) (s : string)
    (p : list string) : Prop :=
  p !! 0 = Some s ∧ hops (allowed g opts) p.

(** The nodes of [p] strictly between its two ends. *)
Definition interior (p : list string) : list string :=
  take (length p - 2) (drop 1 p).

(** The decision table of the specification, rule by rule. *)
Definition decision_table (currentType neighborType : NodeType) (flag : bool) : bool :=
  match currentType, neighborType with
  | WAYPOINT, WAYPOINT => true
  | (DI_BOX | CABINET | FOSSIL), WAYPOINT => true
  | WAYPOINT, (DI_BOX | CABINET | FOSSIL) => true
  | (DI_BOX | CABINET | FOSSIL), (DI_BOX | CABINET | FOSSIL) => false
  | UNKNOWN, _ | _, UNKNOWN => flag
  end.

(** A coordinates value that is a pair of numbers. *)
Definition is_numeric_pair (v : jsval) : bool :=
  match v with
  | JArray [a; b] => isNumber a && isNumber b
  | _ => false
  end.

(** ** The search, seen from outside *)

(** All the allowed hops out of [v] lead to visited nodes, none to the
    target [t]: [v] has been expanded. *)
Definition closed (g : WayfindingGraph) (opts : Options) (t : string)
    (visited : gset string) (v : string) : Prop :=
  ∀ n, allowed g opts v n → n ≠ t ∧ n ∈ visited.

(** What holds of [visited] and [queue] at the head of the [while] loop of a
    search from [s] to [t], and, with the path being expanded put back in
    front of the queue, all through the [for] loop. *)
Record search_inv (g : WayfindingGraph) (opts : Options) (s t : string)
    (visited : gset string) (queue : list (list string)) : Prop := {
  inv_source : s ∈ visited;
  inv_target : t ∉ visited;
  inv_queue : ∀ q, q ∈ queue →
    walk_from g opts s q ∧ ∃ u, last q = Some u ∧ u ∈ visited;
  inv_frontier : ∀ v, v ∈ visited →
    (∃ q, q ∈ queue ∧ last q = Some v) ∨ closed g opts t visited v;
  inv_shortest : ∀ q w u, q ∈ queue → last q = Some u →
    walk_from g opts s w → last w = Some u → length q ≤ length w;
  inv_window : ∀ i j qi qj, i ≤ j → queue !! i = Some qi → queue !! j = Some qj →
    length qi ≤ length qj ∧ length qj ≤ S (length qi)
}.

(** What a returned path is: a walk of allowed hops from the source to the
    target, no longer than any other. *)
Definition shortest_walk (g : WayfindingGraph) (opts : Options) (s t : string)
    (p : list string) : Prop :=
  walk_from g opts s p ∧ last p = Some t ∧
  ∀ w, walk_from g opts s w → last w = Some t → length p ≤ length w.

(** [opts] with one more excluded node. *)
Definition exclude_also (x : string) (opts : Options) : Options :=
  mkOptions (allowDirectFixtureConnections opts) (maxDepth opts)
    ({[x]} ∪ excludeNodes opts).

(** Returned paths share no node besides the two endpoints. *)
Definition endpoint_disjoint (s t : string) (paths : list (list string)) : Prop :=
  ∀ i j p p' x, i < j → paths !! i = Some p → paths !! j = Some p' →
    x ∈ p → x ∈ p' → x = s ∨ x = t.

(** ** Sample graphs *)

Definition add_node (g : WayfindingGraph) (id : string) (type : NodeType) : WayfindingGraph :=
  (addNode g (JString id) type JNull).1.

Definition add_edge (g : WayfindingGraph) (a b : string) : WayfindingGraph :=
  (addEdge g a b true).1.

(** The waypoint chain of the test suite, with a direct fixture edge. *)
Definition chain_graph : WayfindingGraph :=
  let g := add_node empty_graph "wp_001" WAYPOINT in
  let g := add_node g "wp_002" WAYPOINT in
  let g := add_node g "wp_003" WAYPOINT in
  let g := add_node g "di_box_1" DI_BOX in
  let g := add_node g "cabinet_1" CABINET in
  let g := add_edge g "wp_001" "wp_002" in
  let g := add_edge g "wp_002" "wp_003" in
  let g := add_edge g "di_box_1" "wp_001" in
  let g := add_edge g "cabinet_1" "wp_003" in
  add_edge g "di_box_1" "cabinet_1".

(** Two fixtures joined through a node of unknown type. *)
Definition unknown_bridge : WayfindingGraph :=
  let g := add_node empty_graph "di_1" DI_BOX in
  let g := add_node g "junction" UNKNOWN in
  let g := add_node g "cab_1" CABINET in
  let g := add_edge g "di_1" "junction" in
  add_edge g "junction" "cab_1".

(** One edge added in both directions, [wp_a]-[wp_b], and one added with
    [bidirectional = false], from [wp_b] to [wp_c]. *)
Definition mixed_graph : WayfindingGraph :=
  let g := add_node empty_graph "wp_a" WAYPOINT in
  let g := add_node g "wp_b" WAYPOINT in
  let g := add_node g "wp_c" WAYPOINT in
  let g := add_edge g "wp_a" "wp_b" in
  (addEdge g "wp_b" "wp_c" false).1.

(** Two interior-disjoint routes between [start] and [end]. *)
Definition diamond_graph : WayfindingGraph :=
  let g := add_node empty_graph "start" WAYPOINT in
  let g := add_node g "left" WAYPOINT in
  let g := add_node g "right" WAYPOINT in
  let g := add_node g "end" WAYPOINT in
  let g := add_edge g "start" "left" in
  let g := add_edge g "start" "right" in
  let g := add_edge g "left" "end" in
  add_edge g "right" "end".

(** ** The rest of the module *)

(** The graphs that [new WayfindingGraph()], [addNode] and [addEdge] build
    when no call is interrupted: the three key sets agree, neighbours are
    nodes, and a neighbour set holds no id twice. *)
Record graph_wf (g : WayfindingGraph) : Prop := {
  wf_adjacency : dom (adjacencyList g) = nodes g;
  wf_types : dom (nodeTypes g) = nodes g;
  wf_coordinates : dom (nodeCoordinates g) ⊆ nodes g;
  wf_neighbors : ∀ u v, v ∈ getNeighbors g u → v ∈ nodes g;
  wf_nodup : ∀ u, NoDup (getNeighbors g u)
}.

(** Every edge is recorded in both directions. *)
Definition symmetric_graph (g : WayfindingGraph) : Prop :=
  ∀ u v, v ∈ getNeighbors g u → u ∈ getNeighbors g v.

(** [getNodeType] and [getNodeCoordinates] at an arbitrary value: the maps
    have string keys only, so any other key has no entry. *)
Definition getNodeType_of (g : WayfindingGraph) (v : jsval) : NodeType :=
  match v with
  | JString id => getNodeType g id
  | _ => UNKNOWN
  end.

Definition getNodeCoordinates_of (g : WayfindingGraph) (v : jsval) : jsval :=
  match v with
  | JString id => getNodeCoordinates g id
  | _ => JNull
  end.

(** The objects built by [getPathDetails]. *)
Record NodeInfo := mkNodeInfo {
  info_id : jsval;
  info_type : NodeType;
  info_coordinates : jsval
}.

Record Endpoint := mkEndpoint {
  endpoint_id : jsval;
  endpoint_type : NodeType
}.

Record PathSummary := mkPathSummary {
  summary_start : Endpoint;
  summary_end : Endpoint;
  waypointsUsed : nat
}.

Record PathDetails := mkPathDetails {
  details_path : jsval;
  details_length : nat;
  details_nodes : list NodeInfo;
  details_summary : PathSummary
}.

(** [a[i]] on an array: [undefined] out of range. *)
Definition array_get (elems : list jsval) (i : nat) : jsval :=
  match elems !! i with
  | Some v => v
  | None => JUndefined
  end.

(** [getPathDetails]: [None] is the source's [null]. *)
Definition getPathDetails (g : WayfindingGraph) (path : jsval) : option PathDetails :=
  if negb (truthy path) || negb (isArray path) || (array_length path =? 0) then None
  else
    match path with
    | JArray elems =>
        let nodes :=
          map (λ nodeId, mkNodeInfo nodeId (getNodeType_of g nodeId)
                           (getNodeCoordinates_of g nodeId)) elems in
        let used :=
          length (filter (λ nodeId, getNodeType_of g nodeId = WAYPOINT) elems) in
        Some (mkPathDetails path (length elems) nodes
                (mkPathSummary
                   (mkEndpoint (array_get elems 0)
                      (getNodeType_of g (array_get elems 0)))
                   (mkEndpoint (array_get elems (length elems - 1))
                      (getNodeType_of g (array_get elems (length elems - 1))))
                   used))
    | _ => None
    end.

(** A path of node ids as the array that [findPath] returns. *)
Definition path_array (p : list string) : jsval := JArray (map JString p).

(** [String.prototype.toLowerCase] on ASCII strings. *)
Definition lower_ascii (c : Ascii.ascii) : Ascii.ascii :=
  let n := Ascii.nat_of_ascii c in
  if (65 <=? n) && (n <=? 90) then Ascii.ascii_of_nat (n + 32) else c.

Fixpoint toLowerCase (s : string) : string :=
  match s with
  | EmptyString => EmptyString
  | String c s' => String (lower_ascii c) (toLowerCase s')
  end.

(** [String.prototype.toUpperCase] on ASCII strings. *)
Definition upper_ascii (c : Ascii.ascii) : Ascii.ascii :=
  let n := Ascii.nat_of_ascii c in
  if (97 <=? n) && (n <=? 122) then Ascii.ascii_of_nat (n - 32) else c.

Fixpoint toUpperCase (s : string) : string :=
  match s with
  | EmptyString => EmptyString
  | String c s' => String (upper_ascii c) (toUpperCase s')
  end.

(** [s.startsWith(pat)]. *)
Fixpoint startsWith (pat s : string) : bool :=
  match pat, s with
  | EmptyString, _ => true
  | String a pat', String b s' => Ascii.eqb a b && startsWith pat' s'
  | String _ _, EmptyString => false
  end.

(** [s.includes(pat)]. *)
Fixpoint includes (pat s : string) : bool :=
  startsWith pat s ||
  match s with
  | EmptyString => false
  | String _ s' => includes pat s'
  end.

Definition determineNodeType (nodeId : jsval) : NodeType :=
  match nodeId with
  | JString s =>
      if negb (truthy nodeId) then UNKNOWN
      else
        let id := toLowerCase s in
        if startsWith "wp_" id then WAYPOINT
        else if startsWith "di_" id then DI_BOX
        else if startsWith "col_" id && includes "cab_" id then CABINET
        else if startsWith "fossil_" id then FOSSIL
        else UNKNOWN
  | _ => UNKNOWN
  end.

(** ** The graph builder of [data/loader.js] *)

(** The [geometry] of a feature, as far as [GraphBuilder] reads it: [type]
    and [coordinates], each [undefined] when the value has no such
    property. *)
Record Geometry := mkGeometry {
  geometry_type : jsval;
  geometry_coordinates : jsval
}.

(** A GeoJSON feature as far as [GraphBuilder] reads it in its first two
    passes: its [geometry], [None] when it is [null] (as GeoJSON allows for
    a feature that is not located) or [undefined], and the properties [wayfinding_type], [alt_name],
    [source] and [target], each [undefined] when the feature has no such
    property. *)
Record Feature := mkFeature {
  geometry : option Geometry;
  wayfinding_type : jsval;
  alt_name : jsval;
  line_source : jsval;
  line_target : jsval
}.

(** [v === 'literal']. *)
Definition is_literal (v : jsval) (literal : string) : bool :=
  match v with
  | JString s => String.eqb s literal
  | _ => false
  end.

(** [graph.hasNode(v)] at an arbitrary value: the node set holds strings. *)
Definition hasNode_of (g : WayfindingGraph) (v : jsval) : bool :=
  match v with
  | JString id => hasNode g id
  | _ => false
  end.

(** The body of the loop of [_processPoints]. Reading [feature.geometry.type]
    of a feature without geometry throws a [TypeError]. *)
Definition processPoint (g : WayfindingGraph) (feature : Feature)
    : WayfindingGraph * completion unit :=
  match geometry feature with
  | None => (g, Throw TypeError)
  | Some geo =>
      if negb (is_literal (geometry_type geo) "Point") then (g, Return tt)
      else if is_literal (wayfinding_type feature) "walking_grid_point"
              && truthy (alt_name feature)
      then addNode g (alt_name feature) WAYPOINT (geometry_coordinates geo)
      else if truthy (alt_name feature)
      then addNode g (alt_name feature) (determineNodeType (alt_name feature))
             (geometry_coordinates geo)
      else (g, Return tt)
  end.

Fixpoint _processPoints (features : list Feature) (g : WayfindingGraph)
    : WayfindingGraph * completion unit :=
  match features with
  | [] => (g, Return tt)
  | feature :: rest =>
      match processPoint g feature with
      | (g', Return _) => _processPoints rest g'
      | (g', Throw e) => (g', Throw e)
      end
  end.

(** An entry of the [walkingPaths] array. *)
Record WalkingPath := mkWalkingPath {
  walk_path : jsval;
  walk_source : jsval;
  walk_target : jsval;
  walk_type : string
}.

(** [if (!graph.hasNode(v)) graph.addNode(v, determineNodeType(v))]. *)
Definition ensureNode (g : WayfindingGraph) (v : jsval)
    : WayfindingGraph * completion unit :=
  if negb (hasNode_of g v) then addNode g v (determineNodeType v) JNull
  else (g, Return tt).

(** The body of the loop of [_processLines]. Reading [feature.geometry.type]
    of a feature without geometry throws a [TypeError]. When both
    [ensureNode] calls have returned, source and target are strings; the
    last branch of the inner [match] is never taken. *)
Definition processLine (g : WayfindingGraph) (walkingPaths : list WalkingPath)
    (feature : Feature) : WayfindingGraph * list WalkingPath * completion unit :=
  match geometry feature with
  | None => (g, walkingPaths, Throw TypeError)
  | Some geo =>
      if negb (is_literal (geometry_type geo) "LineString")
      then (g, walkingPaths, Return tt)
      else if (is_literal (wayfinding_type feature) "walking_path"
               || is_literal (wayfinding_type feature) "connection_line")
              && truthy (line_source feature) && truthy (line_target feature)
      then
        match ensureNode g (line_source feature) with
        | (g1, Throw e) => (g1, walkingPaths, Throw e)
        | (g1, Return _) =>
            match ensureNode g1 (line_target feature) with
            | (g2, Throw e) => (g2, walkingPaths, Throw e)
            | (g2, Return _) =>
                match line_source feature, line_target feature with
                | JString source, JString target =>
                    match addEdge g2 source target true with
                    | (g3, Throw e) => (g3, walkingPaths, Throw e)
                    | (g3, Return _) =>
                        if is_literal (wayfinding_type feature) "walking_path"
                           && truthy (geometry_coordinates geo)
                        then (g3,
                              walkingPaths ++
                                [mkWalkingPath (geometry_coordinates geo)
                                   (line_source feature) (line_target feature)
                                   "walking_path"],
                              Return tt)
                        else (g3, walkingPaths, Return tt)
                    end
                | _, _ => (g2, walkingPaths, Throw TypeError)
                end
            end
        end
      else (g, walkingPaths, Return tt)
  end.

Fixpoint _processLines (features : list Feature) (g : WayfindingGraph)
    (walkingPaths : list WalkingPath)
    : WayfindingGraph * list WalkingPath * completion unit :=
  match features with
  | [] => (g, walkingPaths, Return tt)
  | feature :: rest =>
      match processLine g walkingPaths feature with
      | (g', walkingPaths', Return _) => _processLines rest g' walkingPaths'
      | (g', walkingPaths', Throw e) => (g', walkingPaths', Throw e)
      end
  end.

(** A graph [g'] that extends [g]: the nodes of [g] are nodes of [g'] with
    the same type and at least the same neighbours. *)
Definition graph_extends (g g' : WayfindingGraph) : Prop :=
  nodes g ⊆ nodes g' ∧
  (∀ x, x ∈ nodes g → getNodeType g' x = getNodeType g x) ∧
  (∀ u v, v ∈ getNeighbors g u → v ∈ getNeighbors g' u).

(** Two grid points, a fixture point and two lines, as a map file has them. *)
Definition sample_features : list Feature :=
  [ mkFeature
      (Some (mkGeometry (JString "Point")
               (JArray [JNumber (-1231 # 10); JNumber (491 # 10)])))
      (JString "walking_grid_point") (JString "wp_001") JUndefined JUndefined;
    mkFeature
      (Some (mkGeometry (JString "Point")
               (JArray [JNumber (-1232 # 10); JNumber (492 # 10)])))
      (JString "walking_grid_point") (JString "wp_002") JUndefined JUndefined;
    mkFeature
      (Some (mkGeometry (JString "Point")
               (JArray [JNumber (-1233 # 10); JNumber (493 # 10)])))
      JUndefined (JString "di_27_18_top") JUndefined JUndefined;
    mkFeature (Some (mkGeometry (JString "LineString") (JArray [JArray []; JArray []])))
      (JString "walking_path") JUndefined (JString "wp_001") (JString "wp_002");
    mkFeature (Some (mkGeometry (JString "LineString") (JArray [JArray []; JArray []])))
      (JString "connection_line") JUndefined (JString "di_27_18_top")
      (JString "fossil_dig_1") ].

(** Ids made of white space that is not ASCII: NO-BREAK SPACE, EM SPACE
    followed by a space, and a byte order mark. *)
Definition nbsp_id : string :=
  String (Ascii.ascii_of_nat 194) (String (Ascii.ascii_of_nat 160) EmptyString).

Definition em_space_id : string :=
  String (Ascii.ascii_of_nat 226)
    (String (Ascii.ascii_of_nat 128) (String (Ascii.ascii_of_nat 131) " ")).

Definition bom_id : string :=
  String (Ascii.ascii_of_nat 239)
    (String (Ascii.ascii_of_nat 187) (String (Ascii.ascii_of_nat 191) EmptyString)).

(** ** Lists and walks: basic facts *)

Lemma hops_singleton R u : hops R [u].
Proof. intros i a b _ Hb. destruct i; discriminate. Qed.

Lemma hops_app_l R p x : hops R (p ++ x) → hops R p.
Proof.
  intros H i u v Hu Hv. apply (H i); by apply lookup_app_l_Some.
Qed.

Lemma hops_last R p u v : hops R (p ++ [v]) → last p = Some u → R u v.
Proof.
  intros H Hl. rewrite last_lookup in Hl.
  assert (length p ≠ 0) by (destruct p; [discriminate|simpl; lia]).
  apply (H (pred (length p))).
  - by apply lookup_app_l_Some.
  - apply list_lookup_middle. lia.
Qed.

Lemma hops_snoc R p u v : hops R p → last p = Some u → R u v → hops R (p ++ [v]).
Proof.
  intros H Hl HR i a b Ha Hb.
  destruct (decide (S i < length p)) as [Hlt|Hge].
  - rewrite lookup_app_l in Ha by lia. rewrite lookup_app_l in Hb by lia. eauto.
  - assert (S i = length p) as Hi.
    { apply lookup_lt_Some in Hb. rewrite length_app in Hb. simpl in Hb. lia. }
    rewrite lookup_app_l in Ha by lia.
    rewrite last_lookup in Hl. rewrite <- Hi in Hl. simpl in Hl.
    rewrite Hi, list_lookup_middle in Hb by done.
    congruence.
Qed.

Lemma last_nonempty (p : list string) u : last p = Some u → 0 < length p.
Proof. destruct p; [discriminate|simpl; lia]. Qed.

Lemma walk_from_snoc g opts s p u v :
  walk_from g opts s p → last p = Some u → allowed g opts u v →
  walk_from g opts s (p ++ [v]).
Proof.
  intros [Hs Hh] Hl Ha. split.
  - by apply lookup_app_l_Some.
  - by eapply hops_snoc.
Qed.

Lemma walk_from_app_l g opts s p x :
  walk_from g opts s (p ++ x) → 0 < length p → walk_from g opts s p.
Proof.
  intros [Hs Hh] Hp. split.
  - rewrite lookup_app_l in Hs by lia. done.
  - by eapply hops_app_l.
Qed.

(** ** The search invariant *)

Section Search.
Variable g : WayfindingGraph.
Variable opts : Options.
Variables s t : string.
Hypothesis Hst : s ≠ t.

Lemma search_inv_init : search_inv g opts s t {[s]} [[s]].
Proof.
  split.
  - set_solver.
  - set_solver.
  - intros q Hq. apply list_elem_of_singleton in Hq as ->. split.
    + split; [done | apply hops_singleton].
    + exists s. split; [done | set_solver].
  - intros v Hv. left. exists [s]. split; [set_solver|].
    apply elem_of_singleton in Hv as ->. done.
  - intros q w u Hq _ _ Hw. apply list_elem_of_singleton in Hq as ->.
    apply last_nonempty in Hw. simpl. lia.
  - intros i j qi qj _ Hi Hj.
    destruct i; [|destruct i; discriminate].
    destruct j; [|destruct j; discriminate].
    simpl in *. simplify_eq. lia.
Qed.

(** A walk from the source to a node not yet visited is strictly longer
    than some path of the queue. *)
Lemma walk_crosses_queue visited queue w :
  search_inv g opts s t visited queue →
  ∀ x, walk_from g opts s w → last w = Some x → x ∉ visited →
  ∃ q, q ∈ queue ∧ length q < length w.
Proof.
  intros Inv. induction w as [|x' w' IH] using rev_ind; intros x Hw Hl Hx.
  - discriminate.
  - rewrite last_snoc in Hl. simplify_eq.
    destruct (last w') as [y|] eqn:Hy.
    + assert (0 < length w') as Hlen by (by eapply last_nonempty).
      assert (walk_from g opts s w') as Hw' by (by eapply walk_from_app_l).
      assert (allowed g opts y x) as Hyx.
      { destruct Hw as [_ Hh]. by eapply hops_last. }
      rewrite length_app. simpl.
      destruct (decide (y ∈ visited)) as [Hv|Hv].
      * destruct (inv_frontier _ _ _ _ _ _ Inv y Hv) as [(q & Hq & Hql)|Hc].
        -- exists q. split; [done|].
           pose proof (inv_shortest _ _ _ _ _ _ Inv q w' y Hq Hql Hw' Hy). lia.
        -- destruct (Hc x Hyx) as [_ ?]. done.
      * destruct (IH y Hw' eq_refl Hv) as (q & Hq & Hlt).
        exists q. split; [done | lia].
    + apply last_None in Hy as ->. destruct Hw as [Hs _].
      simpl in Hs. simplify_eq. destruct Hx. by apply (inv_source _ _ _ _ _ _ Inv).
Qed.

Lemma closed_mono visited visited' v :
  visited ⊆ visited' → closed g opts t visited v → closed g opts t visited' v.
Proof. intros Hsub Hc n Hn. destruct (Hc n Hn). split; [done | set_solver]. Qed.

(** Enqueueing a newly discovered neighbour keeps the invariant. *)
Lemma search_inv_push visited queue q0 u n :
  search_inv g opts s t visited (q0 :: queue) → last q0 = Some u →
  allowed g opts u n → n ∉ visited → n ≠ t →
  search_inv g opts s t ({[n]} ∪ visited) (q0 :: queue ++ [q0 ++ [n]]).
Proof.
  intros Inv Hu Ha Hn Hnt.
  assert (walk_from g opts s q0) as Hq0.
  { apply (inv_queue _ _ _ _ _ _ Inv). set_solver. }
  assert (∀ w, walk_from g opts s w → last w = Some n → S (length q0) ≤ length w) as Hmin.
  { intros w Hw Hl.
    destruct (walk_crosses_queue _ _ w Inv n Hw Hl Hn) as (q & Hq & Hlt).
    apply list_elem_of_lookup in Hq as [j Hj].
    destruct (inv_window _ _ _ _ _ _ Inv 0 j q0 q) as [? _]; [lia|done|done|]. lia. }
  split.
  - pose proof (inv_source _ _ _ _ _ _ Inv). set_solver.
  - pose proof (inv_target _ _ _ _ _ _ Inv) as Ht.
    rewrite elem_of_union, elem_of_singleton. intros [?|?]; [congruence|done].
  - intros q Hq. rewrite app_comm_cons in Hq. apply elem_of_app in Hq as [Hq|Hq].
    + destruct (inv_queue _ _ _ _ _ _ Inv q Hq) as [? (v & ? & ?)].
      split; [done|]. exists v. split; [done | by apply elem_of_union_r].
    + apply list_elem_of_singleton in Hq as ->. split.
      * by eapply walk_from_snoc.
      * exists n. rewrite last_snoc. split; [done | set_solver].
  - intros v Hv. apply elem_of_union in Hv as [Hv|Hv].
    + apply elem_of_singleton in Hv as ->. left. exists (q0 ++ [n]).
      rewrite last_snoc. split; [set_solver | done].
    + destruct (inv_frontier _ _ _ _ _ _ Inv v Hv) as [(q & Hq & Hql)|Hc].
      * left. exists q. split; [|done]. rewrite app_comm_cons.
        apply elem_of_app. by left.
      * right. eapply closed_mono; [|done]. set_solver.
  - intros q w v Hq Hql Hw Hwl. rewrite app_comm_cons in Hq.
    apply elem_of_app in Hq as [Hq|Hq].
    + by eapply (inv_shortest _ _ _ _ _ _ Inv).
    + apply list_elem_of_singleton in Hq as ->.
      rewrite last_snoc in Hql. simplify_eq.
      rewrite length_app. simpl. specialize (Hmin w Hw Hwl). lia.
  - intros i j qi qj Hij Hi Hj. rewrite app_comm_cons in Hi, Hj.
    apply lookup_snoc_Some in Hi as [[Hil Hi]|[Hil <-]];
      apply lookup_snoc_Some in Hj as [[Hjl Hj]|[Hjl <-]].
    + exact (inv_window _ _ _ _ _ _ Inv i j qi qj Hij Hi Hj).
    + destruct (inv_window _ _ _ _ _ _ Inv 0 i q0 qi) as [? ?]; [lia|done|done|].
      rewrite length_app. simpl. lia.
    + lia.
    + lia.
Qed.

(** Once the head of the queue has been expanded it can be dropped. *)
Lemma search_inv_pop visited queue q0 u :
  search_inv g opts s t visited (q0 :: queue) → last q0 = Some u → closed g opts t visited u →
  search_inv g opts s t visited queue.
Proof.
  intros Inv Hu Hc. split.
  - apply (inv_source _ _ _ _ _ _ Inv).
  - apply (inv_target _ _ _ _ _ _ Inv).
  - intros q Hq. apply (inv_queue _ _ _ _ _ _ Inv). set_solver.
  - intros v Hv. destruct (inv_frontier _ _ _ _ _ _ Inv v Hv) as [(q & Hq & Hql)|Hcv].
    + apply elem_of_cons in Hq as [->|Hq].
      * right. rewrite Hu in Hql. by simplify_eq.
      * left. by exists q.
    + by right.
  - intros q w v Hq. apply (inv_shortest _ _ _ _ _ _ Inv). set_solver.
  - intros i j qi qj Hij Hi Hj.
    apply (inv_window _ _ _ _ _ _ Inv (S i) (S j)); [lia|done|done].
Qed.
End Search.

(** ** The two loops of [findPath] *)

Section Loops.
Variable g : WayfindingGraph.
Variable opts : Options.
Variables s t : string.
Hypothesis Hst : s ≠ t.

Lemma exploreNeighbors_spec q0 u neighbors :
  last q0 = Some u →
  (∀ n, n ∈ neighbors → n ∈ getNeighbors g u) →
  ∀ visited queue,
    search_inv g opts s t visited (q0 :: queue) →
    match exploreNeighbors g t opts q0 (getNodeType g u) neighbors visited queue with
    | Found p => shortest_walk g opts s t p
    | Continue visited' queue' =>
        search_inv g opts s t visited' (q0 :: queue') ∧ visited ⊆ visited' ∧
        ∀ n, n ∈ neighbors → allowed g opts u n → n ≠ t ∧ n ∈ visited'
    end.
Proof.
  intros Hu. induction neighbors as [|n rest IH]; intros Hnb visited queue Inv; simpl.
  - split; [done|]. split; [done|]. intros n Hn. by apply elem_of_nil in Hn.
  - assert (∀ m, m ∈ rest → m ∈ getNeighbors g u) as Hrest.
    { intros m Hm. apply Hnb. by apply list_elem_of_further. }
    assert (n ∈ getNeighbors g u) as Hn by (apply Hnb; apply list_elem_of_here).
    destruct (bool_decide (n ∈ visited) || bool_decide (n ∈ excludeNodes opts)) eqn:Hskip.
    { specialize (IH Hrest visited queue Inv).
      destruct (exploreNeighbors _ _ _ _ _ rest visited queue) as [p|visited' queue'];
        [done|].
      destruct IH as (Inv' & Hsub & Hall). split; [done|]. split; [done|].
      intros m Hm Ha. apply elem_of_cons in Hm as [->|Hm]; [|by apply Hall].
      apply orb_true_iff in Hskip as [Hv|He].
      - apply bool_decide_eq_true in Hv. split.
        + intros ->. by apply (inv_target _ _ _ _ _ _ Inv).
        + by apply Hsub.
      - apply bool_decide_eq_true in He. by destruct Ha as (_ & ? & _). }
    apply orb_false_iff in Hskip as [Hv He].
    apply bool_decide_eq_false in Hv. apply bool_decide_eq_false in He.
    destruct (_canVisitNeighbor (getNodeType g u) (getNodeType g n)
                (allowDirectFixtureConnections opts)) eqn:Hcan; simpl.
    2:{ specialize (IH Hrest visited queue Inv).
        destruct (exploreNeighbors _ _ _ _ _ rest visited queue) as [p|visited' queue'];
          [done|].
        destruct IH as (Inv' & Hsub & Hall). split; [done|]. split; [done|].
        intros m Hm Ha. apply elem_of_cons in Hm as [->|Hm]; [|by apply Hall].
        destruct Ha as (_ & _ & Ha). congruence. }
    assert (allowed g opts u n) as Ha by done.
    assert (walk_from g opts s q0) as Hq0.
    { apply (inv_queue _ _ _ _ _ _ Inv). apply list_elem_of_here. }
    destruct (String.eqb n t) eqn:Heq.
    + apply String.eqb_eq in Heq as ->. split; [|split].
      * by eapply walk_from_snoc.
      * apply last_snoc.
      * intros w Hw Hl.
        destruct (walk_crosses_queue g opts s t _ _ w Inv t Hw Hl)
          as (q & Hq & Hlt); [by apply (inv_target _ _ _ _ _ _ Inv)|].
        apply list_elem_of_lookup in Hq as [j Hj].
        destruct (inv_window _ _ _ _ _ _ Inv 0 j q0 q) as [? _]; [lia|done|done|].
        rewrite length_app. simpl. lia.
    + apply String.eqb_neq in Heq.
      assert (search_inv g opts s t ({[n]} ∪ visited) (q0 :: queue ++ [q0 ++ [n]]))
        as Inv1 by (by eapply search_inv_push).
      specialize (IH Hrest _ _ Inv1).
      destruct (exploreNeighbors _ _ _ _ _ rest _ _) as [p|visited' queue'];
        [done|].
      destruct IH as (Inv' & Hsub & Hall). split; [done|].
      split; [etrans; [apply union_subseteq_r | exact Hsub]|].
      intros m Hm Ham. apply elem_of_cons in Hm as [->|Hm].
      * split; [done|]. by apply Hsub, elem_of_union_l, elem_of_singleton.
      * by apply Hall.
Qed.
Lemma searchLoop_spec budget :
  ∀ visited queue p,
    search_inv g opts s t visited queue →
    searchLoop g t opts budget visited queue = Some p →
    shortest_walk g opts s t p.
Proof.
  induction budget as [|budget IH]; intros visited queue p Inv Hrun; simpl in Hrun.
  - discriminate.
  - destruct queue as [|q0 queue]; [discriminate|].
    destruct (inv_queue _ _ _ _ _ _ Inv q0) as [_ (u & Hu & _)];
      [apply list_elem_of_here|].
    rewrite Hu in Hrun.
    pose proof (exploreNeighbors_spec q0 u (getNeighbors g u) Hu
                  (λ n H, H) visited queue Inv) as Hstep.
    destruct (exploreNeighbors _ _ _ _ _ _ _ _) as [p'|visited' queue'].
    + by simplify_eq.
    + destruct Hstep as (Inv' & _ & Hall).
      apply (IH visited' queue' p); [|done].
      apply (search_inv_pop g opts s t Hst visited' queue' q0 u Inv' Hu).
      intros n Hn. apply Hall; [|done]. by destruct Hn.
Qed.
End Loops.

(** ** [findPath]: what a returned path is *)

Lemma findPath_shortest_walk g s t opts p :
  findPath g s t opts = Return (Some p) → shortest_walk g opts s t p.
Proof.
  unfold findPath. intros H.
  destruct (negb (hasNode g s)); [discriminate|].
  destruct (negb (hasNode g t)); [discriminate|].
  destruct (String.eqb s t) eqn:Heq.
  - apply String.eqb_eq in Heq as <-. simplify_eq. split; [|split].
    + split; [done | apply hops_singleton].
    + done.
    + intros w _ Hl. apply last_nonempty in Hl. simpl. lia.
  - apply String.eqb_neq in Heq. simplify_eq.
    eapply (searchLoop_spec g opts s t Heq); [|eassumption].
    by apply search_inv_init.
Qed.

Lemma findPath_walk g s t opts p :
  findPath g s t opts = Return (Some p) →
  p !! 0 = Some s ∧ last p = Some t ∧ hops (allowed g opts) p.
Proof.
  intros H. destruct (findPath_shortest_walk _ _ _ _ _ H) as ([? ?] & ? & _). done.
Qed.

(** ** The source and the excluded set *)

Lemma exploreNeighbors_visited_mono g t opts q ty neighbors :
  ∀ visited queue visited' queue',
    exploreNeighbors g t opts q ty neighbors visited queue = Continue visited' queue' →
    visited ⊆ visited'.
Proof.
  induction neighbors as [|n rest IH]; intros visited queue visited' queue' H; simpl in H.
  - by simplify_eq.
  - repeat case_match; try discriminate; try (by eapply IH).
    apply IH in H. set_solver.
Qed.

Lemma exploreNeighbors_exclude_visited g t opts x q ty neighbors :
  ∀ visited queue, x ∈ visited →
    exploreNeighbors g t (exclude_also x opts) q ty neighbors visited queue =
    exploreNeighbors g t opts q ty neighbors visited queue.
Proof.
  induction neighbors as [|n rest IH]; intros visited queue Hx; simpl; [done|].
  assert (bool_decide (n ∈ visited) || bool_decide (n ∈ {[x]} ∪ excludeNodes opts) =
          bool_decide (n ∈ visited) || bool_decide (n ∈ excludeNodes opts)) as ->.
  { destruct (decide (n ∈ visited)) as [Hn|Hn].
    - by rewrite !(bool_decide_eq_true_2 _ Hn).
    - rewrite !(bool_decide_eq_false_2 _ Hn). simpl.
      apply bool_decide_ext. rewrite elem_of_union, elem_of_singleton.
      split; [intros [->|?]; done | by right]. }
  rewrite (IH visited queue Hx).
  rewrite (IH ({[n]} ∪ visited)) by set_solver. done.
Qed.

Lemma searchLoop_exclude_visited g t opts x budget :
  ∀ visited queue, x ∈ visited →
    searchLoop g t (exclude_also x opts) budget visited queue =
    searchLoop g t opts budget visited queue.
Proof.
  induction budget as [|budget IH]; intros visited queue Hx; simpl; [done|].
  destruct queue as [|q queue]; [done|].
  destruct (last q) as [u|]; [|by apply IH].
  rewrite exploreNeighbors_exclude_visited by done.
  destruct (exploreNeighbors _ _ _ _ _ _ _ _) as [p|visited' queue'] eqn:He; [done|].
  apply IH. apply exploreNeighbors_visited_mono in He. set_solver.
Qed.

(** The hop that enters a node of a walk, other than its first node. *)
Lemma hops_enter R (p : list string) k x :
  hops R p → p !! S k = Some x → ∃ u, p !! k = Some u ∧ R u x.
Proof.
  intros Hh Hx.
  destruct (p !! k) as [u|] eqn:Hu.
  - exists u. split; [done|]. by apply (Hh k).
  - apply lookup_ge_None in Hu. apply lookup_lt_Some in Hx. lia.
Qed.

Lemma walk_from_not_excluded g opts s p x :
  walk_from g opts s p → x ∈ p → x = s ∨ x ∉ excludeNodes opts.
Proof.
  intros [Hs Hh] Hx. apply list_elem_of_lookup in Hx as [k Hk].
  destruct k as [|k].
  - left. congruence.
  - right. destruct (hops_enter _ _ _ _ Hh Hk) as (u & _ & _ & ? & _). done.
Qed.

(** ** [findMultiplePaths] *)

Lemma markIntermediate_spec (path : list string) visited :
  visited ⊆ markIntermediate path visited ∧
  ∀ j x, 1 ≤ j → j < length path - 1 → path !! j = Some x →
         x ∈ markIntermediate path visited.
Proof.
  unfold markIntermediate.
  assert (∀ (js : list nat) (vis : gset string),
            let r := foldl (λ (vis : gset string) j, match path !! j with
                                     | Some x => {[x]} ∪ vis
                                     | None => vis
                                     end) vis js in
            vis ⊆ r ∧ ∀ j x, j ∈ js → path !! j = Some x → x ∈ r) as Hgen.
  { induction js as [|j js IH]; intros vis; simpl.
    - split; [done|]. intros j x Hj. by apply elem_of_nil in Hj.
    - destruct (IH (match path !! j with Some x => {[x]} ∪ vis | None => vis end))
        as [Hsub Hin].
      split.
      + etrans; [|exact Hsub]. destruct (path !! j); [apply union_subseteq_r | done].
      + intros j' x Hj' Hx. apply elem_of_cons in Hj' as [->|Hj'].
        * apply Hsub. rewrite Hx. by apply elem_of_union_l, elem_of_singleton.
        * by eapply Hin. }
  destruct (Hgen (seq 1 (length path - 2)) visited) as [Hsub Hin].
  split; [done|]. intros j x H1 H2 Hx. apply (Hin j x); [|done].
  apply elem_of_seq. lia.
Qed.

Lemma multiLoop_disjoint g s t opts remaining :
  ∀ visited acc paths,
    (∀ p x, p ∈ acc → x ∈ p → x = s ∨ x = t ∨ x ∈ visited) →
    endpoint_disjoint s t acc →
    multiLoop g s t opts remaining visited acc = Return paths →
    endpoint_disjoint s t paths.
Proof.
  induction remaining as [|n IH]; intros visited acc paths Hcover Hdis Hrun; simpl in Hrun.
  - by simplify_eq.
  - destruct (findPath g s t _) as [[path|]|e] eqn:Hfind; [|by simplify_eq|discriminate].
    apply findPath_walk in Hfind as (Hhead & Hlast & Hhops).
    destruct (markIntermediate_spec path visited) as [Hsub Hmark].
    eapply IH; [| |exact Hrun].
    + intros p x Hp Hx. apply elem_of_app in Hp as [Hp|Hp].
      * destruct (Hcover p x Hp Hx) as [?|[?|?]]; [by left|by right; left|].
        right; right. by apply Hsub.
      * apply list_elem_of_singleton in Hp as ->.
        apply list_elem_of_lookup in Hx as [k Hk].
        destruct (decide (k = 0)) as [->|Hk0]; [left; congruence|].
        destruct (decide (k = pred (length path))) as [->|Hkl].
        { right; left. rewrite last_lookup in Hlast. congruence. }
        right; right. apply (Hmark k); [lia| |done].
        apply lookup_lt_Some in Hk. lia.
    + intros i j p p' x Hij Hi Hj Hx Hx'.
      apply lookup_snoc_Some in Hj as [[Hjl Hj]|[Hjl <-]].
      * apply (Hdis i j p p' x); try done.
        apply lookup_snoc_Some in Hi as [[_ Hi]|[Hil _]]; [done|lia].
      * apply lookup_snoc_Some in Hi as [[_ Hi]|[Hil _]]; [|lia].
        assert (p ∈ acc) as Hp by (apply list_elem_of_lookup; eauto).
        destruct (walk_from_not_excluded g _ s path x (conj Hhead Hhops) Hx')
          as [?|Hnot]; [by left|].
        destruct (Hcover p x Hp Hx) as [?|[?|?]]; [by left|by right|].
        by destruct Hnot.
Qed.

(** * Properties *)

(** ** The routing predicate *)

(** C2. Over the five type tags and both values of the flag,
    [_canVisitNeighbor] is the decision table of the specification:
    waypoint to waypoint, fixture to waypoint and waypoint to fixture are
    allowed, fixture to fixture is denied whatever the flag, and a pair with
    an [UNKNOWN] side yields the flag. *)
Theorem canVisitNeighbor_decision_table :
  ∀ currentType neighborType flag,
    _canVisitNeighbor currentType neighborType flag =
    decision_table currentType neighborType flag.
Proof. intros [] [] []; reflexivity. Qed.

Lemma canVisitNeighbor_from_fixture cur nb flag :
  _isFixtureType cur = true → _canVisitNeighbor cur nb flag = true →
  nb = WAYPOINT ∨ (flag = true ∧ nb = UNKNOWN).
Proof. destruct cur, nb, flag; simpl; intros; try discriminate; auto. Qed.

(** ** [findPath] *)

(** C3. A path returned by [findPath] starts at the source, ends at the
    target, and each of its hops, the one onto the target included, follows
    a graph edge and passes the routing predicate under the given flag. *)
Theorem findPath_valid_walk g s t opts p :
  findPath g s t opts = Return (Some p) →
  p !! 0 = Some s ∧ last p = Some t ∧
  (∀ i u v, p !! i = Some u → p !! S i = Some v →
     v ∈ getNeighbors g u ∧
     _canVisitNeighbor (getNodeType g u) (getNodeType g v)
       (allowDirectFixtureConnections opts) = true) ∧
  (∀ q u, p = q ++ [u; t] →
     _canVisitNeighbor (getNodeType g u) (getNodeType g t)
       (allowDirectFixtureConnections opts) = true).
Proof.
  intros H. apply findPath_walk in H as (Hs & Hl & Hh).
  split; [done|]. split; [done|]. split.
  - intros i u v Hu Hv. destruct (Hh i u v Hu Hv) as (? & _ & ?). done.
  - intros q u ->.
    destruct (Hh (length q) u t) as (_ & _ & ?); [| |done].
    + by apply list_lookup_middle.
    + change (q ++ [u; t]) with (q ++ [u] ++ [t]). rewrite app_assoc.
      apply list_lookup_middle. rewrite length_app. simpl. lia.
Qed.

Lemma findPath_valid_walk_witness :
  let p := ["di_box_1"; "wp_001"; "wp_002"; "wp_003"; "cabinet_1"] in
  findPath chain_graph "di_box_1" "cabinet_1" default_options = Return (Some p) ∧
  p !! 0 = Some "di_box_1" ∧ last p = Some "cabinet_1" ∧
  (∀ i u v, p !! i = Some u → p !! S i = Some v →
     v ∈ getNeighbors chain_graph u ∧
     _canVisitNeighbor (getNodeType chain_graph u) (getNodeType chain_graph v)
       false = true) ∧
  (∀ q u, p = q ++ [u; "cabinet_1"] →
     _canVisitNeighbor (getNodeType chain_graph u)
       (getNodeType chain_graph "cabinet_1") false = true).
Proof.
  intros p.
  assert (findPath chain_graph "di_box_1" "cabinet_1" default_options =
            Return (Some p)) as H by (vm_compute; reflexivity).
  split; [exact H|].
  exact (findPath_valid_walk _ _ _ _ _ H).
Defined.

(** C4. A path returned by [findPath] has no more nodes than any walk from
    the source to the target whose hops follow graph edges, pass the routing
    predicate and enter no excluded node. This holds of every returned
    path, whatever [maxDepth] is: the bound only decides whether the search
    gets as far as returning. *)
Theorem findPath_minimal g s t opts p w :
  findPath g s t opts = Return (Some p) →
  w !! 0 = Some s → last w = Some t → hops (allowed g opts) w →
  length p ≤ length w.
Proof.
  intros H Hs Hl Hh.
  destruct (findPath_shortest_walk _ _ _ _ _ H) as (_ & _ & Hmin).
  by apply Hmin.
Qed.

Lemma findPath_minimal_witness :
  findPath diamond_graph "start" "end" default_options =
    Return (Some ["start"; "left"; "end"]) ∧
  hops (allowed diamond_graph default_options) ["start"; "right"; "end"] ∧
  length ["start"; "left"; "end"] ≤ length ["start"; "right"; "end"].
Proof.
  assert (hops (allowed diamond_graph default_options) ["start"; "right"; "end"]) as Hh.
  { intros i u v Hu Hv.
    destruct i as [|[|i]].
    - simpl in Hu, Hv. simplify_eq. repeat split; compute_done.
    - simpl in Hu, Hv. simplify_eq. repeat split; compute_done.
    - apply lookup_lt_Some in Hv. simpl in Hv. lia. }
  assert (findPath diamond_graph "start" "end" default_options =
            Return (Some ["start"; "left"; "end"])) as H by (vm_compute; reflexivity).
  split; [exact H|]. split; [exact Hh|].
  exact (findPath_minimal diamond_graph "start" "end" default_options
           ["start"; "left"; "end"] ["start"; "right"; "end"] H eq_refl eq_refl Hh).
Defined.

Lemma interior_second (p : list string) n :
  2 < length p → p !! 1 = Some n → n ∈ interior p.
Proof.
  intros Hlen Hn. apply list_elem_of_lookup. exists 0. unfold interior.
  rewrite lookup_take_lt by lia. by rewrite lookup_drop.
Qed.

(** C1, as the code has it. Between two distinct fixtures a returned path
    never is the direct edge: it has a node strictly between its ends, and
    the node that follows the source is a waypoint, or, when
    [allowDirectFixtureConnections] is set, possibly a node of unknown type.
    With the flag unset the path therefore has a waypoint strictly between
    its ends. *)
Theorem findPath_fixtures_routed g a b opts p :
  _isFixtureType (getNodeType g a) = true →
  _isFixtureType (getNodeType g b) = true →
  a ≠ b →
  findPath g a b opts = Return (Some p) →
  2 < length p ∧
  (∃ n, p !! 1 = Some n ∧ n ∈ interior p ∧
        (getNodeType g n = WAYPOINT ∨
         (allowDirectFixtureConnections opts = true ∧ getNodeType g n = UNKNOWN))) ∧
  (allowDirectFixtureConnections opts = false →
   ∃ w, w ∈ interior p ∧ getNodeType g w = WAYPOINT).
Proof.
  intros Ha Hb Hab H. apply findPath_walk in H as (Hs & Hl & Hh).
  rewrite last_lookup in Hl.
  assert (1 < length p) as Hlen.
  { destruct p as [|x [|y p]]; simpl in *; [discriminate|congruence|lia]. }
  destruct (lookup_lt_is_Some_2 p 1 Hlen) as [n Hn].
  destruct (Hh 0 a n Hs Hn) as (_ & _ & Hcan).
  apply canVisitNeighbor_from_fixture in Hcan; [|done].
  assert (2 < length p) as Hlen3.
  { destruct p as [|x [|y [|z p]]]; simpl in *; [lia|lia| |lia].
    simplify_eq. destruct Hcan as [Hw|[_ Hw]]; rewrite Hw in Hb; discriminate. }
  split; [done|]. split.
  - exists n. split; [done|]. split; [by apply interior_second | done].
  - intros Hflag. exists n. split; [by apply interior_second|].
    destruct Hcan as [?|[? _]]; [done | congruence].
Qed.

Lemma findPath_fixtures_routed_witness :
  let p := ["di_box_1"; "wp_001"; "wp_002"; "wp_003"; "cabinet_1"] in
  findPath chain_graph "di_box_1" "cabinet_1" default_options = Return (Some p) ∧
  2 < length p ∧
  (∃ n, p !! 1 = Some n ∧ n ∈ interior p ∧
        (getNodeType chain_graph n = WAYPOINT ∨
         (false = true ∧ getNodeType chain_graph n = UNKNOWN))) ∧
  (false = false → ∃ w, w ∈ interior p ∧ getNodeType chain_graph w = WAYPOINT).
Proof.
  intros p.
  assert (findPath chain_graph "di_box_1" "cabinet_1" default_options =
            Return (Some p)) as H by (vm_compute; reflexivity).
  split; [exact H|].
  apply (findPath_fixtures_routed chain_graph "di_box_1" "cabinet_1" default_options p).
  - vm_compute; reflexivity.
  - vm_compute; reflexivity.
  - discriminate.
  - exact H.
Defined.

(** C1, as stated, fails: with [allowDirectFixtureConnections] set, two
    fixtures joined through a node of unknown type get a path without any
    waypoint. *)
Lemma findPath_fixtures_through_unknown :
  let opts := mkOptions true 1000 ∅ in
  _isFixtureType (getNodeType unknown_bridge "di_1") = true ∧
  _isFixtureType (getNodeType unknown_bridge "cab_1") = true ∧
  findPath unknown_bridge "di_1" "cab_1" opts =
    Return (Some ["di_1"; "junction"; "cab_1"]) ∧
  ¬ ∃ w, w ∈ interior ["di_1"; "junction"; "cab_1"] ∧
         getNodeType unknown_bridge w = WAYPOINT.
Proof.
  intros opts. split; [vm_compute; reflexivity|]. split; [vm_compute; reflexivity|].
  split; [vm_compute; reflexivity|].
  intros (w & Hw & Hty). apply list_elem_of_singleton in Hw as ->.
  vm_compute in Hty. discriminate.
Qed.

Lemma findPath_returns g s t opts :
  hasNode g s = true → hasNode g t = true → ∃ r, findPath g s t opts = Return r.
Proof.
  intros Hs Ht. unfold findPath. rewrite Hs, Ht. simpl.
  destruct (String.eqb s t); eauto.
Qed.

(** C5. [findPath] throws exactly when an endpoint is missing from the node
    set, with code [NODE_NOT_FOUND] and a message that quotes the missing id
    (the source's when both are missing); otherwise it returns, a path or
    [null]. *)
Theorem findPath_throws_iff_missing g s t opts :
  (hasNode g s = false →
   findPath g s t opts =
     Throw (PathfindingError ("Source node '" +:+ s +:+ "' not found in graph")
              NODE_NOT_FOUND)) ∧
  (hasNode g s = true → hasNode g t = false →
   findPath g s t opts =
     Throw (PathfindingError ("Target node '" +:+ t +:+ "' not found in graph")
              NODE_NOT_FOUND)) ∧
  (hasNode g s = true → hasNode g t = true →
   ∃ r, findPath g s t opts = Return r) ∧
  ((∃ e, findPath g s t opts = Throw e) ↔ (s ∉ nodes g ∨ t ∉ nodes g)).
Proof.
  unfold findPath.
  assert (hasNode g s = true ↔ s ∈ nodes g) as Hs by apply bool_decide_eq_true.
  assert (hasNode g t = true ↔ t ∈ nodes g) as Ht by apply bool_decide_eq_true.
  destruct (hasNode g s); simpl.
  - destruct (hasNode g t); simpl.
    + split; [discriminate|]. split; [discriminate|]. split.
      * intros _ _. destruct (String.eqb s t); eauto.
      * split.
        -- intros [e He]. destruct (String.eqb s t); discriminate.
        -- intros [H|H]; [destruct H; by apply Hs | destruct H; by apply Ht].
    + split; [discriminate|]. split; [done|]. split; [discriminate|].
      split; [|eauto]. intros _. right. intros H. apply Ht in H. discriminate.
  - split; [done|]. split; [discriminate|]. split; [discriminate|].
    split; [|eauto]. intros _. left. intros H. apply Hs in H. discriminate.
Qed.

Lemma findPath_throws_iff_missing_witness :
  findPath chain_graph "ghost" "wp_001" default_options =
    Throw (PathfindingError "Source node 'ghost' not found in graph" NODE_NOT_FOUND) ∧
  findPath chain_graph "wp_001" "ghost" default_options =
    Throw (PathfindingError "Target node 'ghost' not found in graph" NODE_NOT_FOUND) ∧
  ∃ r, findPath chain_graph "wp_001" "wp_003" default_options = Return r.
Proof.
  split; [|split].
  - apply (proj1 (findPath_throws_iff_missing chain_graph "ghost" "wp_001"
                    default_options)).
    vm_compute; reflexivity.
  - apply (proj1 (proj2 (findPath_throws_iff_missing chain_graph "wp_001" "ghost"
                           default_options))); vm_compute; reflexivity.
  - apply (proj1 (proj2 (proj2 (findPath_throws_iff_missing chain_graph "wp_001"
                                  "wp_003" default_options)))); vm_compute; reflexivity.
Defined.

(** C10. An excluded target is never reached: for distinct existing nodes,
    [findPath] returns [null] when the target is in [excludeNodes]. An
    excluded source changes nothing: the result is the one obtained without
    the source in [excludeNodes]. *)
Theorem excludeNodes_target_not_source g s t opts :
  (hasNode g s = true → hasNode g t = true → s ≠ t → t ∈ excludeNodes opts →
   findPath g s t opts = Return None) ∧
  findPath g s t (exclude_also s opts) = findPath g s t opts.
Proof.
  split.
  - intros Hs Ht Hst Hex.
    destruct (findPath_returns g s t opts Hs Ht) as [[p|] Hr]; [|done].
    exfalso. apply findPath_walk in Hr as (Hhead & Hlast & Hhops).
    apply last_Some in Hlast as [q ->].
    destruct (last q) as [u|] eqn:Hu.
    + destruct (hops_last _ _ _ _ Hhops Hu) as (_ & ? & _). done.
    + apply last_None in Hu as ->. simpl in Hhead. congruence.
  - unfold findPath.
    destruct (negb (hasNode g s)); [done|].
    destruct (negb (hasNode g t)); [done|].
    destruct (String.eqb s t); [done|].
    f_equal. apply searchLoop_exclude_visited. by apply elem_of_singleton.
Qed.

Lemma excludeNodes_target_not_source_witness :
  findPath chain_graph "wp_001" "wp_003" (mkOptions false 1000 {["wp_003"]}) =
    Return None ∧
  findPath chain_graph "wp_001" "wp_003" (mkOptions false 1000 {["wp_001"]}) =
    Return (Some ["wp_001"; "wp_002"; "wp_003"]).
Proof.
  split.
  - apply (proj1 (excludeNodes_target_not_source chain_graph "wp_001" "wp_003"
                    (mkOptions false 1000 {["wp_003"]}))).
    + vm_compute; reflexivity.
    + vm_compute; reflexivity.
    + discriminate.
    + compute_done.
  - rewrite <- (proj2 (excludeNodes_target_not_source chain_graph "wp_001" "wp_003"
                         (mkOptions false 1000 {["wp_001"]}))).
    vm_compute; reflexivity.
Defined.

(** ** [findMultiplePaths] *)

(** C7. Two paths returned by one call of [findMultiplePaths] share no node
    besides the source and the target. *)
Theorem findMultiplePaths_disjoint g s t maxPaths opts paths :
  findMultiplePaths g s t maxPaths opts = Return paths →
  ∀ i j p p' x, i < j → paths !! i = Some p → paths !! j = Some p' →
    x ∈ p → x ∈ p' → x = s ∨ x = t.
Proof.
  unfold findMultiplePaths. intros H.
  apply (multiLoop_disjoint g s t opts (Z.to_nat maxPaths) ∅ [] paths); [| |done].
  - intros p x Hp. by apply elem_of_nil in Hp.
  - intros i j p p' x _ Hi. by rewrite lookup_nil in Hi.
Qed.

Lemma findMultiplePaths_disjoint_witness :
  findMultiplePaths diamond_graph "start" "end" 3 default_options =
    Return [["start"; "left"; "end"]; ["start"; "right"; "end"]] ∧
  ∀ x, x ∈ ["start"; "left"; "end"] → x ∈ ["start"; "right"; "end"] →
       x = "start" ∨ x = "end".
Proof.
  assert (findMultiplePaths diamond_graph "start" "end" 3 default_options =
            Return [["start"; "left"; "end"]; ["start"; "right"; "end"]]) as H
    by (vm_compute; reflexivity).
  split; [exact H|]. intros x.
  apply (findMultiplePaths_disjoint _ _ _ _ _ _ H 0 1); [lia | reflexivity | reflexivity].
Defined.

(** ** [addNode] and [getStatistics] *)

(** *** [trim] *)

Lemma whitespace_prefix_length s rest :
  whitespace_prefix s = Some rest → String.length rest < String.length s.
Proof.
  unfold whitespace_prefix. intros H.
  destruct s as [|a [|b [|c s3]]]; repeat case_match; simplify_eq; simpl; lia.
Qed.

Lemma all_whitespace_from_fuel fuel :
  ∀ fuel' s, String.length s ≤ fuel → String.length s ≤ fuel' →
             all_whitespace_from fuel s = all_whitespace_from fuel' s.
Proof.
  induction fuel as [|fuel IH]; intros fuel' [|a s] Hf Hf'; simpl in Hf, Hf';
    [by destruct fuel' | lia | by destruct fuel' |].
  destruct fuel' as [|fuel']; [lia|].
  cbn [all_whitespace_from].
  destruct (whitespace_prefix (String a s)) as [rest|] eqn:Hp; [|done].
  apply whitespace_prefix_length in Hp. simpl in Hp. apply IH; lia.
Qed.

Lemma all_whitespace_trim_start_from fuel :
  ∀ s, String.length s ≤ fuel →
       all_whitespace (trim_start_from fuel s) = all_whitespace s.
Proof.
  induction fuel as [|fuel IH]; intros s Hf; [done|].
  cbn [trim_start_from].
  destruct (whitespace_prefix s) as [rest|] eqn:Hp; [|done].
  pose proof (whitespace_prefix_length _ _ Hp) as Hlen.
  rewrite IH by lia. unfold all_whitespace at 2.
  destruct s as [|a s]; [discriminate|].
  cbn [String.length all_whitespace_from]. rewrite Hp.
  simpl in Hlen. apply all_whitespace_from_fuel; lia.
Qed.

(** [trim] gives the empty string exactly for the strings made of white
    space only. *)
Lemma trim_blank_iff s : trim s = "" ↔ all_whitespace s = true.
Proof.
  unfold trim, trim_start. rewrite <- (all_whitespace_trim_start_from _ s (le_n _)).
  destruct (trim_start_from (String.length s) s) as [|a r]; [done|].
  cbn [trim_end]. by destruct (all_whitespace (String a r)).
Qed.

(** White space on both sides goes, in ASCII or not; what is between stays,
    white space included. *)
Lemma trim_examples :
  trim "  wp 001 " = "wp 001" ∧
  trim (nbsp_id +:+ "di_1" +:+ em_space_id) = "di_1" ∧
  trim ("cab" +:+ bom_id +:+ "1") = "cab" +:+ bom_id +:+ "1" ∧
  trim nbsp_id = "" ∧ trim em_space_id = "" ∧ trim bom_id = "" ∧ trim "" = "".
Proof. repeat split; vm_compute; reflexivity. Qed.

Lemma trim_nonempty id : trim id ≠ "" → String.eqb (trim id) "" = false.
Proof. intros H. by apply String.eqb_neq. Qed.

(** C6, as the code has it. For an id with a character that is not white
    space: [addNode] throws [INVALID_COORDINATES] when the coordinates value
    is truthy and is not an array of length 2; with an array of length 2,
    whatever its elements, and so with a pair of numbers, it returns and
    stores the value; a falsy value is taken as no coordinates. *)
Theorem addNode_coordinates_check g id type c :
  trim id ≠ "" →
  (truthy c = true → isArray c && (array_length c =? 2) = false →
   (addNode g (JString id) type c).2 =
     Throw (PathfindingError "Coordinates must be an array of [longitude, latitude]"
              INVALID_COORDINATES)) ∧
  (isArray c = true → array_length c = 2 →
   (addNode g (JString id) type c).2 = Return tt ∧
   nodeCoordinates (addNode g (JString id) type c).1 !! id = Some c) ∧
  (is_numeric_pair c = true →
   (addNode g (JString id) type c).2 = Return tt ∧
   nodeCoordinates (addNode g (JString id) type c).1 !! id = Some c) ∧
  (truthy c = false →
   (addNode g (JString id) type c).2 = Return tt ∧
   nodeCoordinates (addNode g (JString id) type c).1 !! id = nodeCoordinates g !! id).
Proof.
  intros Hid. apply trim_nonempty in Hid.
  assert (isArray c = true → array_length c = 2 →
          (addNode g (JString id) type c).2 = Return tt ∧
          nodeCoordinates (addNode g (JString id) type c).1 !! id = Some c) as Hpair.
  { intros Harr Hlen. unfold addNode. rewrite Hid.
    destruct c; try discriminate. simpl in Hlen |- *. rewrite Hlen. simpl.
    destruct (adjacencyList g !! id); simpl; (split; [done | apply lookup_insert_eq]). }
  split; [|split; [exact Hpair|split]].
  - intros Ht Hbad. unfold addNode. rewrite Hid, Ht.
    apply andb_false_iff in Hbad as [->| ->]; simpl; [done|].
    by rewrite orb_true_r.
  - intros Hnum. apply Hpair.
    + by destruct c.
    + destruct c as [| | | | | |[|a [|b [|? ?]]]|]; try discriminate. done.
  - intros Hf. unfold addNode. rewrite Hid, Hf. simpl.
    destruct (adjacencyList g !! id); simpl; done.
Qed.

Lemma addNode_coordinates_check_witness :
  (addNode empty_graph (JString "test") WAYPOINT (JArray [JNumber 123])).2 =
    Throw (PathfindingError "Coordinates must be an array of [longitude, latitude]"
             INVALID_COORDINATES) ∧
  (addNode empty_graph (JString "test") WAYPOINT (JString "invalid")).2 =
    Throw (PathfindingError "Coordinates must be an array of [longitude, latitude]"
             INVALID_COORDINATES) ∧
  nodeCoordinates
    (addNode empty_graph (JString "test") WAYPOINT
       (JArray [JNumber (-12325 # 100); JNumber (4926 # 100)])).1 !! "test" =
    Some (JArray [JNumber (-12325 # 100); JNumber (4926 # 100)]).
Proof.
  split; [|split].
  - apply (proj1 (addNode_coordinates_check empty_graph "test" WAYPOINT
                    (JArray [JNumber 123]) ltac:(vm_compute; discriminate)));
      reflexivity.
  - apply (proj1 (addNode_coordinates_check empty_graph "test" WAYPOINT
                    (JString "invalid") ltac:(vm_compute; discriminate)));
      reflexivity.
  - apply (proj1 (proj2 (proj2 (addNode_coordinates_check empty_graph "test" WAYPOINT
                    (JArray [JNumber (-12325 # 100); JNumber (4926 # 100)])
                    ltac:(vm_compute; discriminate))))).
    reflexivity.
Defined.

(** C6, as stated, fails: a pair of strings is not a pair of numbers, yet
    [addNode] accepts and stores it. *)
Lemma addNode_accepts_non_numeric_pair :
  let c := JArray [JString "east"; JString "north"] in
  trim "cab_1" ≠ "" ∧ truthy c = true ∧ is_numeric_pair c = false ∧
  (addNode empty_graph (JString "cab_1") CABINET c).2 = Return tt ∧
  getNodeCoordinates (addNode empty_graph (JString "cab_1") CABINET c).1 "cab_1" = c.
Proof.
  intros c. split; [vm_compute; discriminate|]. repeat split; vm_compute; reflexivity.
Qed.

(** C9. When [addNode] throws [INVALID_COORDINATES] the node is in the graph
    all the same: [hasNode] holds of the id and [getNodeType] gives the type
    that was passed. *)
Theorem addNode_not_atomic g id type c msg :
  (addNode g (JString id) type c).2 = Throw (PathfindingError msg INVALID_COORDINATES) →
  hasNode (addNode g (JString id) type c).1 id = true ∧
  getNodeType (addNode g (JString id) type c).1 id = type.
Proof.
  unfold addNode. destruct (String.eqb (trim id) ""); [simpl; intros; discriminate|].
  destruct (truthy c).
  - destruct (negb (isArray c) || negb (array_length c =? 2)); simpl.
    + intros _. split.
      * apply bool_decide_eq_true. apply elem_of_union_l. by apply elem_of_singleton.
      * unfold getNodeType. simpl. by rewrite lookup_insert_eq.
    + destruct (adjacencyList g !! id); simpl; intros; discriminate.
  - simpl. destruct (adjacencyList g !! id); simpl; intros; discriminate.
Qed.

Lemma addNode_not_atomic_witness :
  let r := addNode empty_graph (JString "test") WAYPOINT (JArray [JNumber 123]) in
  r.2 = Throw (PathfindingError "Coordinates must be an array of [longitude, latitude]"
                 INVALID_COORDINATES) ∧
  hasNode r.1 "test" = true ∧ getNodeType r.1 "test" = WAYPOINT.
Proof.
  intros r.
  assert (r.2 = Throw (PathfindingError
                         "Coordinates must be an array of [longitude, latitude]"
                         INVALID_COORDINATES)) as H by reflexivity.
  split; [exact H|].
  exact (addNode_not_atomic empty_graph "test" WAYPOINT (JArray [JNumber 123]) _ H).
Defined.

(** C8, at a graph with one edge added in both directions and one added
    with [bidirectional = false]: the node count and the histogram are
    right, and [totalEdges] is three halves, which is no count of edges. *)
Theorem getStatistics_one_way_edge :
  getNeighbors mixed_graph "wp_a" = ["wp_b"] ∧
  getNeighbors mixed_graph "wp_b" = ["wp_a"; "wp_c"] ∧
  getNeighbors mixed_graph "wp_c" = [] ∧
  totalNodes (getStatistics mixed_graph) = 3 ∧
  nodeTypesCount (getStatistics mixed_graph) = {[WAYPOINT := 3]} ∧
  totalEdges (getStatistics mixed_graph) = (3 # 2)%Q ∧
  ∀ n : Z, ¬ (totalEdges (getStatistics mixed_graph) == inject_Z n)%Q.
Proof.
  repeat split; try (vm_compute; reflexivity).
  intros n. change (totalEdges (getStatistics mixed_graph)) with (3 # 2)%Q.
  unfold Qeq. simpl. lia.
Qed.

(** * Further properties of the module *)

(** ** Building a graph *)

Lemma elem_of_ordered_add x y l : x ∈ ordered_add y l ↔ x = y ∨ x ∈ l.
Proof.
  unfold ordered_add. case_bool_decide as Hy.
  - split; [by right|]. intros [->|?]; done.
  - rewrite elem_of_app, list_elem_of_singleton. tauto.
Qed.

Lemma NoDup_ordered_add y l : NoDup l → NoDup (ordered_add y l).
Proof.
  intros Hl. unfold ordered_add. case_bool_decide as Hy; [done|].
  apply NoDup_app. split; [done|]. split.
  - intros x Hx Hx'. apply list_elem_of_singleton in Hx' as ->. done.
  - apply NoDup_singleton.
Qed.

Lemma ordered_add_present y l : y ∈ l → ordered_add y l = l.
Proof. intros Hy. unfold ordered_add. by rewrite bool_decide_eq_true_2. Qed.

Lemma length_ordered_add_fresh y l : y ∉ l → length (ordered_add y l) = S (length l).
Proof.
  intros Hy. unfold ordered_add. rewrite bool_decide_eq_false_2 by done.
  rewrite length_app. simpl. lia.
Qed.

(** The graph left by a call of [addNode] that returns. *)
Lemma addNode_returns g id type c :
  (addNode g (JString id) type c).2 = Return tt →
  let g' := (addNode g (JString id) type c).1 in
  nodes g' = {[id]} ∪ nodes g ∧
  nodeTypes g' = <[id := type]> (nodeTypes g) ∧
  adjacencyList g' =
    match adjacencyList g !! id with
    | Some _ => adjacencyList g
    | None => <[id := []]> (adjacencyList g)
    end ∧
  nodeCoordinates g' =
    (if truthy c then <[id := c]> (nodeCoordinates g) else nodeCoordinates g) ∧
  walkingPaths g' = walkingPaths g ∧
  fixturePolygons g' = fixturePolygons g.
Proof.
  unfold addNode. destruct (String.eqb (trim id) ""); [simpl; intros; discriminate|].
  destruct (truthy c).
  - destruct (negb (isArray c) || negb (array_length c =? 2)); simpl;
      [intros; discriminate|].
    destruct (adjacencyList g !! id); simpl; done.
  - simpl. destruct (adjacencyList g !! id); simpl; done.
Qed.

Lemma getNeighbors_insert g' g id l u :
  adjacencyList g' = <[id := l]> (adjacencyList g) →
  getNeighbors g' u = if decide (id = u) then l else getNeighbors g u.
Proof.
  intros H. unfold getNeighbors. rewrite H, lookup_insert. by case_decide.
Qed.

Lemma empty_graph_wf : graph_wf empty_graph.
Proof.
  split; simpl.
  - apply dom_empty_L.
  - apply dom_empty_L.
  - by rewrite dom_empty_L.
  - intros u v. unfold getNeighbors. simpl. rewrite lookup_empty.
    intros H. by apply elem_of_nil in H.
  - intros u. unfold getNeighbors. simpl. rewrite lookup_empty. apply NoDup_nil_2.
Qed.

Lemma addNode_wf g id type c :
  graph_wf g → (addNode g (JString id) type c).2 = Return tt →
  graph_wf (addNode g (JString id) type c).1.
Proof.
  intros Hwf Hret.
  destruct (addNode_returns _ _ _ _ Hret) as (Hn & Hty & Hadj & Hco & _ & _).
  set (g' := (addNode g (JString id) type c).1) in *.
  assert (∀ u, getNeighbors g' u = getNeighbors g u ∨ getNeighbors g' u = []) as Hnb.
  { intros u. destruct (adjacencyList g !! id) eqn:Hid.
    - left. unfold getNeighbors. by rewrite Hadj.
    - rewrite (getNeighbors_insert g' g id [] u Hadj). case_decide; auto. }
  split.
  - rewrite Hadj, Hn. destruct (adjacencyList g !! id) eqn:Hid.
    + assert (id ∈ nodes g).
      { rewrite <- (wf_adjacency _ Hwf). apply elem_of_dom. eauto. }
      rewrite (wf_adjacency _ Hwf). set_solver.
    + rewrite dom_insert_L. by rewrite (wf_adjacency _ Hwf).
  - rewrite Hty, Hn, dom_insert_L. by rewrite (wf_types _ Hwf).
  - rewrite Hco, Hn. pose proof (wf_coordinates _ Hwf).
    destruct (truthy c); [rewrite dom_insert_L|]; set_solver.
  - intros u v Hv. rewrite Hn. apply elem_of_union_r.
    destruct (Hnb u) as [Hu|Hu]; rewrite Hu in Hv.
    + by apply (wf_neighbors _ Hwf u).
    + by apply elem_of_nil in Hv.
  - intros u. destruct (Hnb u) as [Hu|Hu]; rewrite Hu.
    + apply (wf_nodup _ Hwf).
    + apply NoDup_nil_2.
Qed.

Lemma wf_has_adjacency g id :
  graph_wf g → hasNode g id = true → ∃ l, adjacencyList g !! id = Some l.
Proof.
  intros Hwf H. apply bool_decide_eq_true in H.
  rewrite <- (wf_adjacency _ Hwf) in H. by apply elem_of_dom in H.
Qed.

(** The graph left by a call of [addEdge] on a well-formed graph with both
    endpoints present. *)
Lemma addEdge_returns g s t b :
  graph_wf g → hasNode g s = true → hasNode g t = true →
  let g' := (addEdge g s t b).1 in
  (addEdge g s t b).2 = Return tt ∧
  nodes g' = nodes g ∧ nodeTypes g' = nodeTypes g ∧
  nodeCoordinates g' = nodeCoordinates g ∧
  walkingPaths g' = walkingPaths g ∧ fixturePolygons g' = fixturePolygons g ∧
  ∀ u, getNeighbors g' u =
       if decide (b = true ∧ u = t) then
         ordered_add s (if decide (u = s) then ordered_add t (getNeighbors g u)
                        else getNeighbors g u)
       else if decide (u = s) then ordered_add t (getNeighbors g u)
       else getNeighbors g u.
Proof.
  intros Hwf Hs Ht. unfold addEdge. rewrite Hs, Ht. simpl.
  destruct (wf_has_adjacency g s Hwf Hs) as [ns Hns].
  destruct (wf_has_adjacency g t Hwf Ht) as [nt Hnt].
  rewrite Hns. destruct b; simpl.
  - rewrite lookup_insert. destruct (decide (s = t)) as [<-|Hst]; simpl.
    + repeat split; try done.
      intros u. unfold getNeighbors. simpl. rewrite lookup_insert.
      destruct (decide (s = u)) as [<-|Hu].
      * rewrite decide_True by done. rewrite decide_True by done. by rewrite Hns.
      * rewrite decide_False by (intros [_ ?]; congruence).
        rewrite decide_False by congruence.
        by rewrite lookup_insert_ne by done.
    + rewrite Hnt. simpl. repeat split; try done.
      intros u. unfold getNeighbors. simpl. rewrite lookup_insert.
      destruct (decide (t = u)) as [<-|Hu].
      * rewrite decide_True by done. rewrite decide_False by congruence.
        by rewrite Hnt.
      * rewrite decide_False by (intros [_ ?]; congruence).
        rewrite lookup_insert. destruct (decide (s = u)) as [<-|Hu'].
        -- rewrite decide_True by done. by rewrite Hns.
        -- by rewrite decide_False by congruence.
  - repeat split; try done.
    intros u. unfold getNeighbors. simpl.
    rewrite lookup_insert. destruct (decide (s = u)) as [<-|Hu].
    + rewrite decide_True by done. by rewrite Hns.
    + by rewrite decide_False by congruence.
Qed.

Lemma addEdge_dom g s t b :
  graph_wf g → dom (adjacencyList (addEdge g s t b).1) = dom (adjacencyList g).
Proof.
  intros Hwf. unfold addEdge.
  destruct (hasNode g s) eqn:Hs; [|done]. destruct (hasNode g t) eqn:Ht; [|done].
  destruct (wf_has_adjacency g s Hwf Hs) as [ns Hns].
  destruct (wf_has_adjacency g t Hwf Ht) as [nt Hnt].
  assert (s ∈ dom (adjacencyList g)) as Hds by (apply elem_of_dom; eauto).
  assert (t ∈ dom (adjacencyList g)) as Hdt by (apply elem_of_dom; eauto).
  simpl. rewrite Hns. destruct b; simpl.
  - rewrite lookup_insert. destruct (decide (s = t)) as [<-|Hst]; simpl.
    + rewrite !dom_insert_L. set_solver.
    + rewrite Hnt. simpl. rewrite !dom_insert_L. set_solver.
  - rewrite dom_insert_L. set_solver.
Qed.

Lemma addEdge_wf g s t b : graph_wf g → graph_wf (addEdge g s t b).1.
Proof.
  intros Hwf.
  destruct (hasNode g s) eqn:Hs; [|by unfold addEdge; rewrite Hs].
  destruct (hasNode g t) eqn:Ht; [|by unfold addEdge; rewrite Hs, Ht].
  pose proof (addEdge_dom g s t b Hwf) as Hdom.
  destruct (addEdge_returns g s t b Hwf Hs Ht) as (_ & Hn & Hty & Hco & _ & _ & Hnb).
  apply bool_decide_eq_true in Hs. apply bool_decide_eq_true in Ht.
  split.
  - rewrite Hdom, Hn. apply (wf_adjacency _ Hwf).
  - rewrite Hty, Hn. apply (wf_types _ Hwf).
  - rewrite Hco, Hn. apply (wf_coordinates _ Hwf).
  - intros u v. rewrite Hnb, Hn. pose proof (wf_neighbors _ Hwf u v) as Hold.
    repeat case_decide; rewrite ?elem_of_ordered_add; intros Hv; naive_solver.
  - intros u. rewrite Hnb. pose proof (wf_nodup _ Hwf u).
    repeat case_decide; repeat apply NoDup_ordered_add; done.
Qed.

Lemma chain_graph_wf : graph_wf chain_graph.
Proof.
  unfold chain_graph, add_edge, add_node.
  repeat apply addEdge_wf. repeat (apply addNode_wf; [|reflexivity]).
  exact empty_graph_wf.
Qed.

(** X1. The graph invariant: the empty graph is well formed, a call of
    [addNode] that returns keeps a graph well formed, and so does any call
    of [addEdge]. *)
Theorem graph_wf_preserved :
  graph_wf empty_graph ∧
  (∀ g id type c, graph_wf g → (addNode g (JString id) type c).2 = Return tt →
     graph_wf (addNode g (JString id) type c).1) ∧
  (∀ g s t b, graph_wf g → graph_wf (addEdge g s t b).1).
Proof.
  split; [exact empty_graph_wf|]. split; [exact addNode_wf | exact addEdge_wf].
Qed.

Lemma graph_wf_preserved_witness : graph_wf chain_graph ∧ graph_wf mixed_graph.
Proof.
  destruct graph_wf_preserved as (H0 & Hnode & Hedge).
  split.
  - unfold chain_graph, add_edge, add_node.
    repeat apply Hedge. repeat (apply Hnode; [|reflexivity]). exact H0.
  - unfold mixed_graph, add_edge, add_node.
    repeat apply Hedge. repeat (apply Hnode; [|reflexivity]). exact H0.
Defined.

(** X2. On a well-formed graph [addEdge] throws exactly when an endpoint is
    missing: [NODE_NOT_FOUND] quoting the id, the source's first, and the
    graph is left as it was; with both endpoints present it returns. *)
Theorem addEdge_error_behaviour g s t b :
  graph_wf g →
  (hasNode g s = false →
   addEdge g s t b =
     (g, Throw (PathfindingError ("Source node '" +:+ s +:+ "' not found in graph")
                  NODE_NOT_FOUND))) ∧
  (hasNode g s = true → hasNode g t = false →
   addEdge g s t b =
     (g, Throw (PathfindingError ("Target node '" +:+ t +:+ "' not found in graph")
                  NODE_NOT_FOUND))) ∧
  (hasNode g s = true → hasNode g t = true → (addEdge g s t b).2 = Return tt).
Proof.
  intros Hwf. split; [|split].
  - intros Hs. unfold addEdge. by rewrite Hs.
  - intros Hs Ht. unfold addEdge. by rewrite Hs, Ht.
  - intros Hs Ht. by destruct (addEdge_returns g s t b Hwf Hs Ht) as [? _].
Qed.

Lemma addEdge_error_behaviour_witness :
  addEdge chain_graph "nonexistent" "wp_001" true =
    (chain_graph,
     Throw (PathfindingError "Source node 'nonexistent' not found in graph"
              NODE_NOT_FOUND)) ∧
  addEdge chain_graph "wp_001" "nonexistent" true =
    (chain_graph,
     Throw (PathfindingError "Target node 'nonexistent' not found in graph"
              NODE_NOT_FOUND)) ∧
  (addEdge chain_graph "wp_001" "wp_003" false).2 = Return tt.
Proof.
  pose proof chain_graph_wf as Hwf.
  split; [|split].
  - apply (proj1 (addEdge_error_behaviour chain_graph "nonexistent" "wp_001" true Hwf)).
    vm_compute; reflexivity.
  - apply (proj1 (proj2 (addEdge_error_behaviour chain_graph "wp_001" "nonexistent"
                           true Hwf))); vm_compute; reflexivity.
  - apply (proj2 (proj2 (addEdge_error_behaviour chain_graph "wp_001" "wp_003"
                           false Hwf))); vm_compute; reflexivity.
Defined.

(** X3. After [addEdge] on a well-formed graph with both endpoints present,
    the neighbours of a node are those it had, then the target for the
    source, and the source for the target when the edge is bidirectional;
    the neighbours it had stay in front, in their order. *)
Theorem addEdge_neighbors g s t b :
  graph_wf g → hasNode g s = true → hasNode g t = true →
  ∀ u,
    getNeighbors g u `prefix_of` getNeighbors (addEdge g s t b).1 u ∧
    ∀ v, v ∈ getNeighbors (addEdge g s t b).1 u ↔
         v ∈ getNeighbors g u ∨ (u = s ∧ v = t) ∨ (b = true ∧ u = t ∧ v = s).
Proof.
  intros Hwf Hs Ht u.
  destruct (addEdge_returns g s t b Hwf Hs Ht) as (_ & _ & _ & _ & _ & _ & Hnb).
  rewrite Hnb.
  assert (∀ y l, l `prefix_of` ordered_add y l) as Hpre.
  { intros y l. unfold ordered_add. case_bool_decide; [done|]. by apply prefix_app_r. }
  split.
  - repeat case_decide;
      first [reflexivity | apply Hpre | (etrans; [apply Hpre | apply Hpre])].
  - intros v. repeat case_decide; rewrite ?elem_of_ordered_add; naive_solver.
Qed.

Lemma addEdge_neighbors_witness :
  "wp_001" ∈ getNeighbors (addEdge chain_graph "wp_001" "wp_003" true).1 "wp_003" ∧
  getNeighbors chain_graph "wp_003" `prefix_of`
    getNeighbors (addEdge chain_graph "wp_001" "wp_003" true).1 "wp_003".
Proof.
  assert (hasNode chain_graph "wp_001" = true) as H1 by (vm_compute; reflexivity).
  assert (hasNode chain_graph "wp_003" = true) as H3 by (vm_compute; reflexivity).
  destruct (addEdge_neighbors chain_graph "wp_001" "wp_003" true chain_graph_wf H1 H3
              "wp_003") as [Hpre Hmem].
  split; [|exact Hpre].
  apply Hmem. right. right. repeat split.
Defined.

Lemma insert_ordered_add_id (m : gmap string (list string)) k y l :
  m !! k = Some l → y ∈ l → <[k := ordered_add y l]> m = m.
Proof. intros Hk Hy. rewrite ordered_add_present by done. by apply insert_id. Qed.

(** X4. [addEdge] is idempotent: on a well-formed graph, adding an edge a
    second time returns and leaves the graph exactly as the first call
    left it. *)
Theorem addEdge_idempotent g s t b :
  graph_wf g → hasNode g s = true → hasNode g t = true →
  addEdge (addEdge g s t b).1 s t b = ((addEdge g s t b).1, Return tt).
Proof.
  intros Hwf Hs Ht.
  pose proof (addEdge_wf g s t b Hwf) as Hwf1.
  destruct (addEdge_returns g s t b Hwf Hs Ht) as (_ & Hn & _ & _ & _ & _ & Hnb).
  set (g1 := (addEdge g s t b).1) in *.
  assert (hasNode g1 s = true) as Hs1 by (unfold hasNode; by rewrite Hn).
  assert (hasNode g1 t = true) as Ht1 by (unfold hasNode; by rewrite Hn).
  destruct (wf_has_adjacency g1 s Hwf1 Hs1) as [l1 Hl1].
  destruct (wf_has_adjacency g1 t Hwf1 Ht1) as [l2 Hl2].
  assert (t ∈ l1) as Htl.
  { pose proof (Hnb s) as H. unfold getNeighbors at 1 in H. rewrite Hl1 in H.
    rewrite H. repeat case_decide; rewrite ?elem_of_ordered_add; naive_solver. }
  assert (b = true → s ∈ l2) as Hsl.
  { intros ->. pose proof (Hnb t) as H. unfold getNeighbors at 1 in H.
    rewrite Hl2 in H. rewrite H. rewrite decide_True by done.
    apply elem_of_ordered_add. by left. }
  clearbody g1. clear Hnb Hn.
  unfold addEdge. rewrite Hs1, Ht1. simpl. rewrite Hl1.
  rewrite (insert_ordered_add_id _ s t l1 Hl1 Htl).
  destruct b; simpl.
  - rewrite Hl2. rewrite (insert_ordered_add_id _ t s l2 Hl2 (Hsl eq_refl)).
    by destruct g1.
  - by destruct g1.
Qed.

Lemma addEdge_idempotent_witness :
  addEdge (addEdge chain_graph "wp_001" "wp_003" true).1 "wp_001" "wp_003" true =
    ((addEdge chain_graph "wp_001" "wp_003" true).1, Return tt).
Proof.
  apply (addEdge_idempotent chain_graph "wp_001" "wp_003" true chain_graph_wf);
    vm_compute; reflexivity.
Defined.

(** X5. Adding again a node that exists, in a well-formed graph, keeps the
    node set and every neighbour set, gives the node the new type and
    leaves the other types; without (truthy) coordinates the coordinates it
    had are kept. *)
Theorem addNode_existing g id type c :
  graph_wf g → hasNode g id = true →
  (addNode g (JString id) type c).2 = Return tt →
  let g' := (addNode g (JString id) type c).1 in
  nodes g' = nodes g ∧
  (∀ u, getNeighbors g' u = getNeighbors g u) ∧
  getNodeType g' id = type ∧
  (∀ x, x ≠ id → getNodeType g' x = getNodeType g x) ∧
  (truthy c = false → ∀ x, getNodeCoordinates g' x = getNodeCoordinates g x).
Proof.
  intros Hwf Hid Hret g'.
  destruct (addNode_returns _ _ _ _ Hret) as (Hn & Hty & Hadj & Hco & _ & _).
  fold g' in Hn, Hty, Hadj, Hco.
  destruct (wf_has_adjacency g id Hwf Hid) as [l Hl]. rewrite Hl in Hadj.
  apply bool_decide_eq_true in Hid.
  split; [|split; [|split; [|split]]].
  - rewrite Hn. apply subseteq_union_1_L. by apply singleton_subseteq_l.
  - intros u. unfold getNeighbors. by rewrite Hadj.
  - unfold getNodeType. by rewrite Hty, lookup_insert_eq.
  - intros x Hx. unfold getNodeType. by rewrite Hty, lookup_insert_ne.
  - intros Hc x. unfold getNodeCoordinates. rewrite Hco, Hc. done.
Qed.

Lemma addNode_existing_witness :
  let g' := (addNode chain_graph (JString "wp_002") FOSSIL JNull).1 in
  nodes g' = nodes chain_graph ∧
  (∀ u, getNeighbors g' u = getNeighbors chain_graph u) ∧
  getNodeType g' "wp_002" = FOSSIL ∧
  (∀ x, x ≠ "wp_002" → getNodeType g' x = getNodeType chain_graph x) ∧
  (truthy JNull = false →
   ∀ x, getNodeCoordinates g' x = getNodeCoordinates chain_graph x).
Proof.
  apply (addNode_existing chain_graph "wp_002" FOSSIL JNull chain_graph_wf);
    vm_compute; reflexivity.
Defined.

(** The graph left by a call of [addNode] that throws on the coordinates. *)
Lemma addNode_throws_coordinates g id type c msg :
  (addNode g (JString id) type c).2 = Throw (PathfindingError msg INVALID_COORDINATES) →
  (addNode g (JString id) type c).1 =
    mkGraph ({[id]} ∪ nodes g) (adjacencyList g) (<[id := type]> (nodeTypes g))
      (nodeCoordinates g) (walkingPaths g) (fixturePolygons g).
Proof.
  unfold addNode. destruct (String.eqb (trim id) ""); [simpl; intros; discriminate|].
  destruct (truthy c).
  - destruct (negb (isArray c) || negb (array_length c =? 2)); simpl; [done|].
    destruct (adjacencyList g !! id); simpl; intros; discriminate.
  - simpl. destruct (adjacencyList g !! id); simpl; intros; discriminate.
Qed.

(** X6. In a well-formed graph, a new node whose [addNode] threw on the
    coordinates has no neighbour set. An [addEdge] from it then throws a [TypeError], not a
    [PathfindingError]; a bidirectional [addEdge] towards it throws the same
    after having recorded the new node as a neighbour of the source. *)
Theorem addEdge_after_failed_addNode g id type c msg other b :
  graph_wf g → hasNode g id = false → hasNode g other = true →
  (addNode g (JString id) type c).2 = Throw (PathfindingError msg INVALID_COORDINATES) →
  let g' := (addNode g (JString id) type c).1 in
  addEdge g' id other b = (g', Throw TypeError) ∧
  (addEdge g' other id true).2 = Throw TypeError ∧
  id ∈ getNeighbors (addEdge g' other id true).1 other.
Proof.
  intros Hwf Hid Hother Hthrow g'. unfold g'.
  rewrite (addNode_throws_coordinates _ _ _ _ _ Hthrow). clear g' Hthrow.
  destruct (wf_has_adjacency g other Hwf Hother) as [l Hl].
  assert (adjacencyList g !! id = None) as Hnone.
  { apply not_elem_of_dom. rewrite (wf_adjacency _ Hwf).
    intros H. unfold hasNode in Hid. by rewrite bool_decide_eq_true_2 in Hid. }
  assert (other ≠ id) as Hne by (intros ->; congruence).
  apply bool_decide_eq_true in Hother.
  assert (∀ x, x ∈ {[id]} ∪ nodes g → hasNode
            (mkGraph ({[id]} ∪ nodes g) (adjacencyList g) (<[id := type]> (nodeTypes g))
               (nodeCoordinates g) (walkingPaths g) (fixturePolygons g)) x = true) as Hhas.
  { intros x Hx. by apply bool_decide_eq_true. }
  split; [|split].
  - unfold addEdge. rewrite !Hhas by set_solver. simpl. by rewrite Hnone.
  - unfold addEdge. rewrite !Hhas by set_solver. simpl. rewrite Hl. simpl.
    by rewrite lookup_insert_ne, Hnone.
  - unfold addEdge. rewrite !Hhas by set_solver. simpl. rewrite Hl. simpl.
    rewrite lookup_insert_ne, Hnone by done. simpl.
    unfold getNeighbors. simpl. rewrite lookup_insert_eq.
    apply elem_of_ordered_add. by left.
Qed.

Lemma addEdge_after_failed_addNode_witness :
  let g' := (addNode chain_graph (JString "new_cab") CABINET (JArray [JNumber 1])).1 in
  addEdge g' "new_cab" "wp_001" true = (g', Throw TypeError) ∧
  (addEdge g' "wp_001" "new_cab" true).2 = Throw TypeError ∧
  "new_cab" ∈ getNeighbors (addEdge g' "wp_001" "new_cab" true).1 "wp_001".
Proof.
  apply (addEdge_after_failed_addNode chain_graph "new_cab" CABINET
           (JArray [JNumber 1])
           "Coordinates must be an array of [longitude, latitude]" "wp_001" true
           chain_graph_wf); vm_compute; reflexivity.
Defined.

(** ** [getStatistics] *)

Lemma neighborSum_insert g g' k l l0 :
  adjacencyList g !! k = Some l0 →
  adjacencyList g' = <[k := l]> (adjacencyList g) →
  neighborSum g' + length l0 = neighborSum g + length l.
Proof.
  intros Hk Hg'. unfold neighborSum. rewrite Hg'.
  assert (∀ (j1 j2 : string) (z1 z2 : list string) (y : nat),
            y + length z2 + length z1 = y + length z1 + length z2) as Hcomm
    by (intros; lia).
  rewrite <- (insert_delete_eq (adjacencyList g) k l).
  rewrite <- (insert_delete_id (adjacencyList g) k l0 Hk) at 2.
  rewrite !map_fold_insert_L; try (by intros; apply Hcomm); try apply lookup_delete_eq.
Qed.

Lemma totalEdges_shift g g' :
  (neighborSum g' = neighborSum g + 2 →
   (totalEdges (getStatistics g') == totalEdges (getStatistics g) + 1)%Q) ∧
  (neighborSum g' = neighborSum g + 1 →
   (totalEdges (getStatistics g') == totalEdges (getStatistics g) + (1 # 2))%Q).
Proof.
  split; intros H; simpl; rewrite H, Nat2Z.inj_add, inject_Z_plus; field.
Qed.

(** X7. In a well-formed graph, a new edge between two distinct nodes that
    are not yet neighbours in either direction raises [totalEdges] by one
    when added in both directions, and by one half when added with
    [bidirectional = false]. *)
Theorem addEdge_totalEdges g s t :
  graph_wf g → hasNode g s = true → hasNode g t = true → s ≠ t →
  t ∉ getNeighbors g s → s ∉ getNeighbors g t →
  (totalEdges (getStatistics (addEdge g s t true).1) ==
   totalEdges (getStatistics g) + 1)%Q ∧
  (totalEdges (getStatistics (addEdge g s t false).1) ==
   totalEdges (getStatistics g) + (1 # 2))%Q.
Proof.
  intros Hwf Hs Ht Hst Hts Hst'.
  destruct (wf_has_adjacency g s Hwf Hs) as [ns Hns].
  destruct (wf_has_adjacency g t Hwf Ht) as [nt Hnt].
  unfold getNeighbors in Hts, Hst'. rewrite Hns in Hts. rewrite Hnt in Hst'.
  set (g1 := mkGraph (nodes g) (<[s := ordered_add t ns]> (adjacencyList g))
               (nodeTypes g) (nodeCoordinates g) (walkingPaths g) (fixturePolygons g)).
  assert (neighborSum g1 = neighborSum g + 1) as H1.
  { pose proof (neighborSum_insert g g1 s (ordered_add t ns) ns Hns eq_refl) as H.
    rewrite length_ordered_add_fresh in H by done. lia. }
  split.
  - assert ((addEdge g s t true).1 =
            mkGraph (nodes g) (<[t := ordered_add s nt]> (adjacencyList g1))
              (nodeTypes g) (nodeCoordinates g) (walkingPaths g) (fixturePolygons g))
      as ->.
    { unfold addEdge. rewrite Hs, Ht. simpl. rewrite Hns. simpl.
      by rewrite lookup_insert_ne, Hnt. }
    assert (adjacencyList g1 !! t = Some nt) as Hnt1.
    { simpl. by rewrite lookup_insert_ne. }
    set (g2 := mkGraph (nodes g) (<[t := ordered_add s nt]> (adjacencyList g1))
                 (nodeTypes g) (nodeCoordinates g) (walkingPaths g) (fixturePolygons g)).
    pose proof (neighborSum_insert g1 g2 t (ordered_add s nt) nt Hnt1 eq_refl) as H.
    rewrite length_ordered_add_fresh in H by done.
    apply (proj1 (totalEdges_shift g g2)). lia.
  - assert ((addEdge g s t false).1 = g1) as ->.
    { unfold addEdge. rewrite Hs, Ht. simpl. by rewrite Hns. }
    apply (proj2 (totalEdges_shift g g1)). lia.
Qed.

Lemma addEdge_totalEdges_witness :
  (totalEdges (getStatistics (addEdge chain_graph "wp_001" "wp_003" true).1) ==
   totalEdges (getStatistics chain_graph) + 1)%Q ∧
  (totalEdges (getStatistics (addEdge chain_graph "wp_001" "wp_003" false).1) ==
   totalEdges (getStatistics chain_graph) + (1 # 2))%Q.
Proof.
  apply (addEdge_totalEdges chain_graph "wp_001" "wp_003" chain_graph_wf).
  - vm_compute; reflexivity.
  - vm_compute; reflexivity.
  - discriminate.
  - apply (bool_decide_eq_false_1 _). vm_compute; reflexivity.
  - apply (bool_decide_eq_false_1 _). vm_compute; reflexivity.
Defined.

(** The number of ids stored with type [ty]. *)
Lemma typeCount_lookup g ty :
  typeCount g !! ty =
  let n := size (filter (λ kv : string * NodeType, kv.2 = ty) (nodeTypes g)) in
  if n =? 0 then None else Some n.
Proof.
  unfold typeCount. revert ty.
  apply (map_fold_weak_ind
           (λ (r : gmap NodeType nat) (m : gmap string NodeType),
              ∀ ty, r !! ty =
                    let n := size (filter (λ kv : string * NodeType, kv.2 = ty) m) in
                    if n =? 0 then None else Some n)).
  - intros ty. by rewrite map_filter_empty, map_size_empty, lookup_empty.
  - intros i x m r Hi IH ty. simpl in *.
    destruct (decide (x = ty)) as [->|Hne].
    + rewrite lookup_insert_eq, map_filter_insert_True by done.
      rewrite map_size_insert_None by (by apply map_lookup_filter_None_2; left).
      rewrite IH. simpl.
      destruct (size (filter _ m)); simpl; f_equal; lia.
    + rewrite lookup_insert_ne by done.
      rewrite map_filter_insert_not' by (done || (intros y; by rewrite Hi)).
      apply IH.
Qed.

Lemma size_by_type (m : gmap string NodeType) :
  size m =
  foldr (λ ty acc, size (filter (λ kv : string * NodeType, kv.2 = ty) m) + acc) 0
    [WAYPOINT; DI_BOX; CABINET; FOSSIL; UNKNOWN].
Proof.
  induction m as [|i x m Hi IH] using map_ind.
  - simpl. by rewrite !map_filter_empty, !map_size_empty.
  - rewrite map_size_insert_None by done. simpl in *.
    assert (∀ ty, size (filter (λ kv : string * NodeType, kv.2 = ty) (<[i:=x]> m)) =
                  size (filter (λ kv : string * NodeType, kv.2 = ty) m) +
                  (if decide (x = ty) then 1 else 0)) as Hstep.
    { intros ty. case_decide as Hx.
      - rewrite map_filter_insert_True by done.
        rewrite map_size_insert_None by (by apply map_lookup_filter_None_2; left). lia.
      - rewrite map_filter_insert_not' by (done || (intros y; by rewrite Hi)). lia. }
    rewrite !Hstep, IH. destruct x; simpl; lia.
Qed.

(** X8. The histogram of [getStatistics] has, for each type, the number of
    ids stored with that type, and no entry for a type that no id has; in a
    well-formed graph the five counts add up to [totalNodes]. *)
Theorem getStatistics_histogram g :
  (∀ ty, nodeTypesCount (getStatistics g) !! ty =
         let n := size (filter (λ kv : string * NodeType, kv.2 = ty) (nodeTypes g)) in
         if n =? 0 then None else Some n) ∧
  (graph_wf g →
   totalNodes (getStatistics g) =
   foldr (λ ty acc, default 0 (nodeTypesCount (getStatistics g) !! ty) + acc) 0
     [WAYPOINT; DI_BOX; CABINET; FOSSIL; UNKNOWN]).
Proof.
  split; [apply typeCount_lookup|].
  intros Hwf. simpl. rewrite <- (wf_types _ Hwf), size_dom, size_by_type.
  rewrite !typeCount_lookup. simpl.
  repeat (destruct (size (filter _ (nodeTypes g))); simpl); lia.
Qed.

Lemma getStatistics_histogram_witness :
  totalNodes (getStatistics chain_graph) =
  foldr (λ ty acc, default 0 (nodeTypesCount (getStatistics chain_graph) !! ty) + acc) 0
    [WAYPOINT; DI_BOX; CABINET; FOSSIL; UNKNOWN].
Proof. exact (proj2 (getStatistics_histogram chain_graph) chain_graph_wf). Defined.

(** ** [findPath]: the iteration bound *)

Lemma exploreNeighbors_ext g t opts opts' q ty neighbors :
  allowDirectFixtureConnections opts = allowDirectFixtureConnections opts' →
  excludeNodes opts = excludeNodes opts' →
  ∀ visited queue,
    exploreNeighbors g t opts q ty neighbors visited queue =
    exploreNeighbors g t opts' q ty neighbors visited queue.
Proof.
  intros Hf He. induction neighbors as [|n rest IH]; intros visited queue; simpl; [done|].
  rewrite Hf, He, !IH. done.
Qed.

Lemma searchLoop_ext g t opts opts' budget :
  allowDirectFixtureConnections opts = allowDirectFixtureConnections opts' →
  excludeNodes opts = excludeNodes opts' →
  ∀ visited queue,
    searchLoop g t opts budget visited queue = searchLoop g t opts' budget visited queue.
Proof.
  intros Hf He. induction budget as [|budget IH]; intros visited queue; simpl; [done|].
  destruct queue as [|q queue]; [done|]. destruct (last q); [|apply IH].
  rewrite (exploreNeighbors_ext g t opts opts') by done.
  destruct (exploreNeighbors _ _ _ _ _ _ _ _); [done | apply IH].
Qed.

Lemma searchLoop_more_budget g t opts budget extra :
  ∀ visited queue p,
    searchLoop g t opts budget visited queue = Some p →
    searchLoop g t opts (budget + extra) visited queue = Some p.
Proof.
  induction budget as [|budget IH]; intros visited queue p H; simpl in *; [discriminate|].
  destruct queue as [|q queue]; [discriminate|].
  destruct (last q); [|by apply IH].
  destruct (exploreNeighbors _ _ _ _ _ _ _ _); [done | by apply IH].
Qed.

(** X9. Raising [maxDepth] never loses nor changes a path: what [findPath]
    returns under a bound it returns under every larger bound. *)
Theorem findPath_maxDepth_monotone g s t flag exclude d d' p :
  (d ≤ d')%Z →
  findPath g s t (mkOptions flag d exclude) = Return (Some p) →
  findPath g s t (mkOptions flag d' exclude) = Return (Some p).
Proof.
  intros Hd. unfold findPath.
  destruct (negb (hasNode g s)); [done|]. destruct (negb (hasNode g t)); [done|].
  destruct (String.eqb s t); [done|]. simpl. intros H. f_equal.
  assert (searchLoop g t (mkOptions flag d exclude) (Z.to_nat d) {[s]} [[s]] = Some p)
    as H' by congruence.
  apply (searchLoop_more_budget _ _ _ _ (Z.to_nat d' - Z.to_nat d)) in H'.
  replace (Z.to_nat d + (Z.to_nat d' - Z.to_nat d)) with (Z.to_nat d') in H' by lia.
  rewrite <- H'. by apply searchLoop_ext.
Qed.

Lemma findPath_maxDepth_monotone_witness :
  findPath chain_graph "di_box_1" "cabinet_1" (mkOptions false 2000 ∅) =
    Return (Some ["di_box_1"; "wp_001"; "wp_002"; "wp_003"; "cabinet_1"]).
Proof.
  apply (findPath_maxDepth_monotone chain_graph "di_box_1" "cabinet_1" false ∅ 4 2000).
  - lia.
  - vm_compute; reflexivity.
Defined.

Section Completeness.
Variable g : WayfindingGraph.
Variable opts : Options.
Variables s t : string.
Hypothesis Hst : s ≠ t.
Variable universe : gset string.
Hypothesis Huniverse : ∀ u v, v ∈ getNeighbors g u → v ∈ universe.

Lemma size_difference_step (visited : gset string) n :
  n ∈ universe → n ∉ visited →
  size (universe ∖ visited) = S (size (universe ∖ ({[n]} ∪ visited))).
Proof.
  intros Hn Hv.
  assert (universe ∖ visited = {[n]} ∪ universe ∖ ({[n]} ∪ visited)) as ->.
  { apply set_eq. intros x. rewrite elem_of_union, !elem_of_difference,
      elem_of_union, elem_of_singleton.
    destruct (decide (x = n)) as [->|]; naive_solver. }
  rewrite size_union, size_singleton; [done|].
  apply disjoint_singleton_l. rewrite elem_of_difference, elem_of_union,
    elem_of_singleton. naive_solver.
Qed.

(** One expansion leaves [length queue + size (universe ∖ visited)] as it
    is: each path it enqueues marks one more node visited. *)
Lemma exploreNeighbors_potential q ty neighbors :
  (∀ n, n ∈ neighbors → n ∈ universe) →
  ∀ visited queue visited' queue',
    exploreNeighbors g t opts q ty neighbors visited queue = Continue visited' queue' →
    length queue' + size (universe ∖ visited') =
    length queue + size (universe ∖ visited).
Proof.
  induction neighbors as [|n rest IH]; intros Hin visited queue visited' queue' H;
    simpl in H.
  - by simplify_eq.
  - assert (∀ m, m ∈ rest → m ∈ universe) as Hrest
      by (intros m Hm; apply Hin; by apply list_elem_of_further).
    destruct (bool_decide (n ∈ visited) || bool_decide (n ∈ excludeNodes opts)) eqn:Hskip;
      [by apply (IH Hrest) in H|].
    destruct (negb (_canVisitNeighbor ty (getNodeType g n)
                      (allowDirectFixtureConnections opts)));
      [by apply (IH Hrest) in H|].
    destruct (String.eqb n t); [discriminate|].
    apply (IH Hrest) in H. rewrite length_app in H. simpl in H.
    apply orb_false_iff in Hskip as [Hv _]. apply bool_decide_eq_false in Hv.
    rewrite (size_difference_step visited n); [lia | | done].
    apply Hin, list_elem_of_here.
Qed.

(** When the loop stops with budget to spare, no walk reaches the target. *)
Lemma searchLoop_exhausted budget :
  ∀ visited queue,
    search_inv g opts s t visited queue →
    length queue + size (universe ∖ visited) ≤ budget →
    searchLoop g t opts budget visited queue = None →
    ∀ w, walk_from g opts s w → last w = Some t → False.
Proof.
  assert (∀ visited, search_inv g opts s t visited [] →
            ∀ w, walk_from g opts s w → last w = Some t → False) as Hempty.
  { intros visited Inv w Hw Hl.
    destruct (walk_crosses_queue g opts s t visited [] w Inv t Hw Hl) as (q & Hq & _).
    - apply (inv_target _ _ _ _ _ _ Inv).
    - by apply elem_of_nil in Hq. }
  induction budget as [|budget IH]; intros visited queue Inv Hpot Hrun.
  - destruct queue; [by apply (Hempty visited) | simpl in Hpot; lia].
  - destruct queue as [|q0 queue]; [by apply (Hempty visited)|].
    simpl in Hrun.
    destruct (inv_queue _ _ _ _ _ _ Inv q0) as [_ (u & Hu & _)];
      [apply list_elem_of_here|].
    rewrite Hu in Hrun.
    pose proof (exploreNeighbors_spec g opts s t Hst q0 u (getNeighbors g u) Hu
                  (λ n H, H) visited queue Inv) as Hstep.
    pose proof (exploreNeighbors_potential q0 (getNodeType g u) (getNeighbors g u)
                  (Huniverse u) visited queue) as Hpot'.
    destruct (exploreNeighbors _ _ _ _ _ _ _ _) as [p'|visited' queue'];
      [discriminate|].
    destruct Hstep as (Inv' & _ & Hall). specialize (Hpot' _ _ eq_refl).
    apply (IH visited' queue'); [| simpl in Hpot; lia | done].
    apply (search_inv_pop g opts s t Hst visited' queue' q0 u Inv' Hu).
    intros n Hn. apply Hall; [|done]. by destruct Hn.
Qed.
End Completeness.

Lemma findPath_finds g s t opts w :
  graph_wf g → hasNode g s = true → hasNode g t = true →
  (Z.of_nat (size (nodes g)) ≤ maxDepth opts)%Z →
  walk_from g opts s w → last w = Some t →
  ∃ p, findPath g s t opts = Return (Some p).
Proof.
  intros Hwf Hs Ht Hdepth Hw Hwl.
  destruct (findPath_returns g s t opts Hs Ht) as [[p|] Hnone]; [by exists p|].
  exfalso. unfold findPath in Hnone. rewrite Hs, Ht in Hnone. simpl in Hnone.
  destruct (String.eqb s t) eqn:Heq; [discriminate|].
  apply String.eqb_neq in Heq.
  assert (searchLoop g t opts (Z.to_nat (maxDepth opts)) {[s]} [[s]] = None)
    as Hrun by congruence.
  apply (searchLoop_exhausted g opts s t Heq (nodes g) (wf_neighbors _ Hwf)
           _ _ _ (search_inv_init g opts s t Heq)) with (w := w) in Hrun; try done.
  simpl. apply bool_decide_eq_true in Hs.
  assert (size (nodes g) = S (size (nodes g ∖ {[s]}))) as Hsize.
  { rewrite (union_difference_L {[s]} (nodes g)) at 1
      by (by apply singleton_subseteq_l).
    rewrite size_union, size_singleton; [done|]. set_solver. }
  lia.
Qed.

(** X10. With [maxDepth] at least the number of nodes, the search of a
    well-formed graph is complete: for existing endpoints [findPath]
    returns [null] exactly when no walk of allowed hops leads from the
    source to the target. *)
Theorem findPath_null_iff_unreachable g s t opts :
  graph_wf g → hasNode g s = true → hasNode g t = true →
  (Z.of_nat (totalNodes (getStatistics g)) ≤ maxDepth opts)%Z →
  findPath g s t opts = Return None ↔
  ¬ ∃ w, w !! 0 = Some s ∧ last w = Some t ∧ hops (allowed g opts) w.
Proof.
  intros Hwf Hs Ht Hdepth. split.
  - intros Hnone (w & Hw0 & Hwl & Hwh).
    destruct (findPath_finds g s t opts w Hwf Hs Ht Hdepth (conj Hw0 Hwh) Hwl)
      as [p Hp].
    congruence.
  - intros Hno. destruct (findPath_returns g s t opts Hs Ht) as [[p|] Hr]; [|done].
    destruct Hno. exists p. by apply findPath_walk.
Qed.

Lemma findPath_null_iff_unreachable_witness :
  findPath chain_graph "di_box_1" "cabinet_1" (mkOptions false 1000 {["wp_002"]}) =
    Return None ↔
  ¬ ∃ w, w !! 0 = Some "di_box_1" ∧ last w = Some "cabinet_1" ∧
         hops (allowed chain_graph (mkOptions false 1000 {["wp_002"]})) w.
Proof.
  apply (findPath_null_iff_unreachable chain_graph "di_box_1" "cabinet_1"
           (mkOptions false 1000 {["wp_002"]}) chain_graph_wf).
  - vm_compute; reflexivity.
  - vm_compute; reflexivity.
  - vm_compute. discriminate.
Defined.

(** ** [findPath]: symmetry, the flag, simple paths *)

Lemma canVisitNeighbor_symmetric c n flag :
  _canVisitNeighbor c n flag = _canVisitNeighbor n c flag.
Proof. by destruct c, n, flag. Qed.

Lemma canVisitNeighbor_flag_irrelevant c n flag flag' :
  c ≠ UNKNOWN → n ≠ UNKNOWN →
  _canVisitNeighbor c n flag = _canVisitNeighbor c n flag'.
Proof. by destruct c, n, flag, flag'. Qed.

Lemma hops_reverse R (p : list string) :
  hops R p → hops (λ u v, R v u) (reverse p).
Proof.
  intros Hh i u v Hu Hv.
  apply reverse_lookup_Some in Hu as [Hu Hi].
  apply reverse_lookup_Some in Hv as [Hv Hi'].
  apply (Hh (length p - S (S i))); [done|].
  by replace (S (length p - S (S i))) with (length p - S i) by lia.
Qed.

Lemma hops_impl (R R' : string → string → Prop) p :
  (∀ u v, R u v → R' u v) → hops R p → hops R' p.
Proof. intros HR Hh i u v Hu Hv. by apply HR, (Hh i). Qed.

Lemma findPath_Return_hasNode g s t opts r :
  findPath g s t opts = Return r → hasNode g s = true ∧ hasNode g t = true.
Proof.
  unfold findPath. destruct (hasNode g s); [|discriminate].
  destruct (hasNode g t); [done | discriminate].
Qed.

(** X11. Symmetry. In a well-formed graph whose edges are all recorded in
    both directions, with no excluded node and [maxDepth] at least the
    number of nodes: if [findPath] returns a path from [a] to [b], it
    returns one from [b] to [a], with as many nodes. *)
Theorem findPath_symmetric g a b opts p :
  graph_wf g → symmetric_graph g → excludeNodes opts = ∅ →
  (Z.of_nat (totalNodes (getStatistics g)) ≤ maxDepth opts)%Z →
  findPath g a b opts = Return (Some p) →
  ∃ p', findPath g b a opts = Return (Some p') ∧ length p' = length p.
Proof.
  intros Hwf Hsym Hex Hdepth Hp.
  destruct (findPath_Return_hasNode _ _ _ _ _ Hp) as [Ha Hb].
  assert (∀ u v, allowed g opts v u → allowed g opts u v) as Hflip.
  { intros u v (Hnb & _ & Hcan). split; [by apply Hsym|]. split.
    - rewrite Hex. apply not_elem_of_empty.
    - by rewrite canVisitNeighbor_symmetric. }
  assert (∀ x y q, findPath g x y opts = Return (Some q) →
            walk_from g opts y (reverse q) ∧ last (reverse q) = Some x) as Hrev.
  { intros x y q Hq. apply findPath_walk in Hq as (H0 & Hl & Hh). split; [split|].
    - by rewrite <- head_lookup, head_reverse.
    - eapply hops_impl; [|by apply hops_reverse]. simpl. intros u v. apply Hflip.
    - by rewrite last_reverse, head_lookup. }
  destruct (Hrev a b p Hp) as [Hw Hwl].
  destruct (findPath_finds g b a opts (reverse p) Hwf Hb Ha Hdepth Hw Hwl) as [p' Hp'].
  exists p'. split; [done|].
  destruct (Hrev b a p' Hp') as [Hw' Hwl'].
  destruct (findPath_shortest_walk _ _ _ _ _ Hp) as (_ & _ & Hmin).
  destruct (findPath_shortest_walk _ _ _ _ _ Hp') as (_ & _ & Hmin').
  specialize (Hmin _ Hw' Hwl'). specialize (Hmin' _ Hw Hwl).
  rewrite length_reverse in Hmin, Hmin'. lia.
Qed.

Lemma chain_graph_nodes :
  nodes chain_graph =
  list_to_set ["wp_001"; "wp_002"; "wp_003"; "di_box_1"; "cabinet_1"].
Proof. vm_compute; reflexivity. Qed.

Lemma empty_graph_symmetric : symmetric_graph empty_graph.
Proof.
  intros u v. unfold getNeighbors. simpl. rewrite lookup_empty.
  intros H. by apply elem_of_nil in H.
Qed.

Lemma addNode_symmetric g id type c :
  graph_wf g → symmetric_graph g → (addNode g (JString id) type c).2 = Return tt →
  symmetric_graph (addNode g (JString id) type c).1.
Proof.
  intros Hwf Hsym Hret.
  destruct (addNode_returns _ _ _ _ Hret) as (_ & _ & Hadj & _).
  set (g' := (addNode g (JString id) type c).1) in *.
  destruct (adjacencyList g !! id) eqn:Hid.
  - intros u v. unfold getNeighbors. rewrite Hadj. apply Hsym.
  - intros u v. rewrite !(getNeighbors_insert g' g id [] _ Hadj).
    destruct (decide (id = u)) as [->|Hu]; [intros H; by apply elem_of_nil in H|].
    intros Hv. rewrite decide_False; [by apply Hsym|].
    intros <-. apply (wf_neighbors _ Hwf) in Hv.
    rewrite <- (wf_adjacency _ Hwf) in Hv. apply elem_of_dom in Hv as [? ?].
    congruence.
Qed.

Lemma addEdge_symmetric g s t :
  graph_wf g → symmetric_graph g → symmetric_graph (addEdge g s t true).1.
Proof.
  intros Hwf Hsym.
  destruct (hasNode g s) eqn:Hs; [|by unfold addEdge; rewrite Hs].
  destruct (hasNode g t) eqn:Ht; [|by unfold addEdge; rewrite Hs, Ht].
  destruct (addEdge_returns g s t true Hwf Hs Ht) as (_ & _ & _ & _ & _ & _ & Hnb).
  intros u v. rewrite !Hnb. pose proof (Hsym u v) as Hold.
  repeat case_decide; rewrite ?elem_of_ordered_add; intros Hv; naive_solver.
Qed.

(** X17. Symmetry of the edge relation is kept by every call of [addNode]
    that returns and by every [addEdge] with [bidirectional = true], on
    well-formed graphs: a graph built with bidirectional edges only has
    each edge in both directions. *)
Theorem symmetric_graph_preserved :
  symmetric_graph empty_graph ∧
  (∀ g id type c, graph_wf g → symmetric_graph g →
     (addNode g (JString id) type c).2 = Return tt →
     symmetric_graph (addNode g (JString id) type c).1) ∧
  (∀ g s t, graph_wf g → symmetric_graph g →
     symmetric_graph (addEdge g s t true).1).
Proof.
  split; [exact empty_graph_symmetric|].
  split; [exact addNode_symmetric | exact addEdge_symmetric].
Qed.

Lemma symmetric_graph_preserved_witness :
  symmetric_graph (addEdge (add_node (add_node empty_graph "wp_a" WAYPOINT)
                              "wp_b" WAYPOINT) "wp_a" "wp_b" true).1.
Proof.
  destruct symmetric_graph_preserved as (H0 & Hnode & Hedge).
  unfold add_node.
  apply Hedge.
  - repeat (apply addNode_wf; [|reflexivity]). exact empty_graph_wf.
  - apply Hnode; [|apply Hnode|reflexivity].
    + apply addNode_wf; [exact empty_graph_wf | reflexivity].
    + exact empty_graph_wf.
    + exact H0.
    + reflexivity.
Defined.

Lemma chain_graph_symmetric : symmetric_graph chain_graph.
Proof.
  unfold chain_graph, add_edge, add_node.
  repeat (apply addEdge_symmetric;
          [repeat apply addEdge_wf; repeat (apply addNode_wf; [|reflexivity]);
           exact empty_graph_wf|]).
  apply addNode_symmetric;
    [repeat (apply addNode_wf; [|reflexivity]); exact empty_graph_wf| |reflexivity].
  apply addNode_symmetric;
    [repeat (apply addNode_wf; [|reflexivity]); exact empty_graph_wf| |reflexivity].
  apply addNode_symmetric;
    [repeat (apply addNode_wf; [|reflexivity]); exact empty_graph_wf| |reflexivity].
  apply addNode_symmetric;
    [repeat (apply addNode_wf; [|reflexivity]); exact empty_graph_wf| |reflexivity].
  apply addNode_symmetric; [exact empty_graph_wf| |reflexivity].
  exact empty_graph_symmetric.
Qed.

Lemma findPath_symmetric_witness :
  ∃ p', findPath chain_graph "cabinet_1" "di_box_1" default_options = Return (Some p') ∧
        length p' = length ["di_box_1"; "wp_001"; "wp_002"; "wp_003"; "cabinet_1"].
Proof.
  apply (findPath_symmetric chain_graph "di_box_1" "cabinet_1" default_options _
           chain_graph_wf chain_graph_symmetric).
  - reflexivity.
  - vm_compute. discriminate.
  - vm_compute; reflexivity.
Defined.

Section FlagIrrelevant.
Variable g : WayfindingGraph.
Variables flag flag' : bool.
Variable depth : Z.
Variable exclude : gset string.
Variable t : string.
Hypothesis Hwf : graph_wf g.
Hypothesis Hknown : ∀ id, id ∈ nodes g → getNodeType g id ≠ UNKNOWN.

Lemma exploreNeighbors_flag q u neighbors :
  u ∈ nodes g → (∀ n, n ∈ neighbors → n ∈ nodes g) →
  ∀ visited queue,
    exploreNeighbors g t (mkOptions flag depth exclude) q (getNodeType g u)
      neighbors visited queue =
    exploreNeighbors g t (mkOptions flag' depth exclude) q (getNodeType g u)
      neighbors visited queue.
Proof.
  intros Hu. induction neighbors as [|n rest IH]; intros Hin visited queue; simpl;
    [done|].
  assert (∀ m, m ∈ rest → m ∈ nodes g) as Hrest
    by (intros m Hm; apply Hin; by apply list_elem_of_further).
  rewrite (canVisitNeighbor_flag_irrelevant _ _ flag flag');
    [| by apply Hknown | apply Hknown, Hin, list_elem_of_here].
  by rewrite !(IH Hrest).
Qed.

Lemma exploreNeighbors_lasts opts q u neighbors :
  last q = Some u → (∀ n, n ∈ neighbors → n ∈ nodes g) →
  ∀ visited queue visited' queue',
    (∀ q' v, q' ∈ queue → last q' = Some v → v ∈ nodes g) →
    exploreNeighbors g t opts q (getNodeType g u) neighbors visited queue =
      Continue visited' queue' →
    ∀ q' v, q' ∈ queue' → last q' = Some v → v ∈ nodes g.
Proof.
  intros Hu. induction neighbors as [|n rest IH];
    intros Hin visited queue visited' queue' Hq H; simpl in H.
  - by simplify_eq.
  - assert (∀ m, m ∈ rest → m ∈ nodes g) as Hrest
      by (intros m Hm; apply Hin; by apply list_elem_of_further).
    repeat case_match; try discriminate; try (by eapply (IH Hrest)).
    eapply (IH Hrest); [|done].
    intros q' v Hq' Hl. apply elem_of_app in Hq' as [Hq'|Hq']; [by eapply Hq|].
    apply list_elem_of_singleton in Hq' as ->. rewrite last_snoc in Hl.
    simplify_eq. apply Hin, list_elem_of_here.
Qed.

Lemma searchLoop_flag budget :
  ∀ visited queue,
    (∀ q v, q ∈ queue → last q = Some v → v ∈ nodes g) →
    searchLoop g t (mkOptions flag depth exclude) budget visited queue =
    searchLoop g t (mkOptions flag' depth exclude) budget visited queue.
Proof.
  induction budget as [|budget IH]; intros visited queue Hq; simpl; [done|].
  destruct queue as [|q queue]; [done|].
  assert (∀ q' v, q' ∈ queue → last q' = Some v → v ∈ nodes g) as Hq'
    by (intros q' v Hin; apply Hq; by apply list_elem_of_further).
  destruct (last q) as [u|] eqn:Hu; [|by apply IH].
  assert (u ∈ nodes g) as Hun by (eapply Hq; [apply list_elem_of_here | done]).
  rewrite (exploreNeighbors_flag q u _ Hun (wf_neighbors _ Hwf u)).
  destruct (exploreNeighbors _ _ _ _ _ _ _ _) as [p|visited' queue'] eqn:He; [done|].
  apply IH. eapply exploreNeighbors_lasts; [exact Hu| |exact Hq'|exact He].
  apply (wf_neighbors _ Hwf).
Qed.
End FlagIrrelevant.

(** X12. In a well-formed graph where no node is of type [UNKNOWN],
    [allowDirectFixtureConnections] has no effect at all: [findPath] gives
    the same result for both values of the flag. *)
Theorem findPath_flag_irrelevant g s t depth exclude :
  graph_wf g → (∀ id, id ∈ nodes g → getNodeType g id ≠ UNKNOWN) →
  findPath g s t (mkOptions true depth exclude) =
  findPath g s t (mkOptions false depth exclude).
Proof.
  intros Hwf Hknown. unfold findPath.
  destruct (hasNode g s) eqn:Hs; [|done]. destruct (negb (hasNode g t)); [done|].
  destruct (String.eqb s t); [done|]. simpl. f_equal.
  apply searchLoop_flag; [done|done|].
  intros q v Hq Hl. apply list_elem_of_singleton in Hq as ->. simpl in Hl.
  simplify_eq. by apply bool_decide_eq_true in Hs.
Qed.

Lemma findPath_flag_irrelevant_witness :
  findPath chain_graph "di_box_1" "cabinet_1" (mkOptions true 1000 ∅) =
  findPath chain_graph "di_box_1" "cabinet_1" (mkOptions false 1000 ∅).
Proof.
  apply (findPath_flag_irrelevant chain_graph "di_box_1" "cabinet_1" 1000 ∅
           chain_graph_wf).
  intros id Hid. rewrite chain_graph_nodes in Hid.
  apply elem_of_list_to_set in Hid.
  repeat (apply elem_of_cons in Hid as [->|Hid]);
    [..|apply elem_of_nil in Hid; destruct Hid];
    vm_compute; discriminate.
Defined.

(** The paths of the queue never repeat a node and lie within [visited]. *)
Lemma exploreNeighbors_simple g t opts q ty neighbors :
  NoDup q →
  ∀ visited queue,
    t ∉ visited → (∀ x, x ∈ q → x ∈ visited) →
    (∀ q', q' ∈ queue → NoDup q' ∧ ∀ x, x ∈ q' → x ∈ visited) →
    match exploreNeighbors g t opts q ty neighbors visited queue with
    | Found p => NoDup p
    | Continue visited' queue' =>
        t ∉ visited' ∧ ∀ q', q' ∈ queue' → NoDup q' ∧ ∀ x, x ∈ q' → x ∈ visited'
    end.
Proof.
  intros Hq. induction neighbors as [|n rest IH]; intros visited queue Ht Hqv Hinv; simpl.
  - done.
  - destruct (bool_decide (n ∈ visited) || bool_decide (n ∈ excludeNodes opts)) eqn:Hskip;
      [by apply IH|].
    destruct (negb (_canVisitNeighbor ty (getNodeType g n)
                      (allowDirectFixtureConnections opts))); [by apply IH|].
    apply orb_false_iff in Hskip as [Hv _]. apply bool_decide_eq_false in Hv.
    assert (NoDup (q ++ [n])) as Hnew.
    { apply NoDup_app. split; [done|]. split; [|apply NoDup_singleton].
      intros x Hx Hx'. apply list_elem_of_singleton in Hx' as ->. by apply Hv, Hqv. }
    destruct (String.eqb n t) eqn:Heq; [done|]. apply String.eqb_neq in Heq.
    apply IH.
    + rewrite elem_of_union, elem_of_singleton. intros [?|?]; [congruence|done].
    + intros x Hx. by apply elem_of_union_r, Hqv.
    + intros q' Hq'. apply elem_of_app in Hq' as [Hq'|Hq'].
      * destruct (Hinv q' Hq') as [? Hsub]. split; [done|].
        intros x Hx. by apply elem_of_union_r, Hsub.
      * apply list_elem_of_singleton in Hq' as ->. split; [done|].
        intros x Hx. apply elem_of_app in Hx as [Hx|Hx].
        -- by apply elem_of_union_r, Hqv.
        -- apply list_elem_of_singleton in Hx as ->.
           by apply elem_of_union_l, elem_of_singleton.
Qed.

Lemma searchLoop_simple g t opts budget :
  ∀ visited queue p,
    t ∉ visited →
    (∀ q, q ∈ queue → NoDup q ∧ ∀ x, x ∈ q → x ∈ visited) →
    searchLoop g t opts budget visited queue = Some p → NoDup p.
Proof.
  induction budget as [|budget IH]; intros visited queue p Ht Hinv H; simpl in H;
    [discriminate|].
  destruct queue as [|q queue]; [discriminate|].
  assert (∀ q', q' ∈ queue → NoDup q' ∧ ∀ x, x ∈ q' → x ∈ visited) as Hinv'
    by (intros q' Hq'; apply Hinv; by apply list_elem_of_further).
  destruct (last q) as [u|]; [|by eapply IH].
  destruct (Hinv q (list_elem_of_here _ _)) as [Hq Hqv].
  pose proof (exploreNeighbors_simple g t opts q (getNodeType g u) (getNeighbors g u)
                Hq visited queue Ht Hqv Hinv') as Hstep.
  destruct (exploreNeighbors _ _ _ _ _ _ _ _) as [p'|visited' queue'].
  - by simplify_eq.
  - destruct Hstep as [Ht' Hinv'']. by eapply IH.
Qed.

Lemma findPath_NoDup g s t opts p :
  findPath g s t opts = Return (Some p) → NoDup p.
Proof.
  unfold findPath. destruct (negb (hasNode g s)); [discriminate|].
  destruct (negb (hasNode g t)); [discriminate|].
  destruct (String.eqb s t) eqn:Heq; intros H.
  - simplify_eq. apply NoDup_singleton.
  - apply String.eqb_neq in Heq.
    eapply (searchLoop_simple g t opts _ {[s]} [[s]]); [| |by simplify_eq].
    + rewrite elem_of_singleton. congruence.
    + intros q Hq. apply list_elem_of_singleton in Hq as ->.
      split; [apply NoDup_singleton|]. intros x Hx.
      apply list_elem_of_singleton in Hx as ->. by apply elem_of_singleton.
Qed.

(** X13. A path returned by [findPath] visits no node twice; in a
    well-formed graph all its nodes are nodes of the graph, so that it has
    at most [totalNodes] nodes. *)
Theorem findPath_simple_path g s t opts p :
  findPath g s t opts = Return (Some p) →
  NoDup p ∧
  (graph_wf g →
   (∀ x, x ∈ p → hasNode g x = true) ∧ length p ≤ totalNodes (getStatistics g)).
Proof.
  intros H. pose proof (findPath_NoDup _ _ _ _ _ H) as Hnd. split; [done|].
  intros Hwf. destruct (findPath_Return_hasNode _ _ _ _ _ H) as [Hs _].
  apply findPath_walk in H as (H0 & _ & Hh).
  assert (∀ x, x ∈ p → x ∈ nodes g) as Hin.
  { intros x Hx. apply list_elem_of_lookup in Hx as [k Hk]. destruct k as [|k].
    - apply bool_decide_eq_true in Hs. congruence.
    - destruct (hops_enter _ _ _ _ Hh Hk) as (u & _ & Hnb & _).
      by apply (wf_neighbors _ Hwf u). }
  split.
  - intros x Hx. by apply bool_decide_eq_true, Hin.
  - simpl. rewrite <- (size_list_to_set (C := gset string) p Hnd).
    apply subseteq_size. intros x Hx. apply elem_of_list_to_set in Hx. by apply Hin.
Qed.

Lemma findPath_simple_path_witness :
  let p := ["di_box_1"; "wp_001"; "wp_002"; "wp_003"; "cabinet_1"] in
  NoDup p ∧ length p ≤ totalNodes (getStatistics chain_graph).
Proof.
  intros p.
  assert (findPath chain_graph "di_box_1" "cabinet_1" default_options =
            Return (Some p)) as H by (vm_compute; reflexivity).
  destruct (findPath_simple_path _ _ _ _ _ H) as [Hnd Hrest].
  split; [exact Hnd|]. exact (proj2 (Hrest chain_graph_wf)).
Defined.

(** ** [findMultiplePaths]: more *)

Lemma multiLoop_paths g s t opts remaining :
  ∀ visited acc paths,
    (∀ p, p ∈ acc →
       ∃ E, E ⊆ visited ∧
            shortest_walk g (mkOptions (allowDirectFixtureConnections opts)
                               (maxDepth opts) E) s t p) →
    (∀ i j p p', i ≤ j → acc !! i = Some p → acc !! j = Some p' →
       length p ≤ length p') →
    multiLoop g s t opts remaining visited acc = Return paths →
    length paths ≤ length acc + remaining ∧
    (∀ p, p ∈ paths →
       ∃ E, shortest_walk g (mkOptions (allowDirectFixtureConnections opts)
                               (maxDepth opts) E) s t p) ∧
    (∀ i j p p', i ≤ j → paths !! i = Some p → paths !! j = Some p' →
       length p ≤ length p').
Proof.
  induction remaining as [|n IH]; intros visited acc paths Hacc Hsorted Hrun;
    simpl in Hrun.
  - simplify_eq. split; [lia|]. split; [|done].
    intros p Hp. destruct (Hacc p Hp) as (E & _ & ?). by exists E.
  - destruct (findPath g s t _) as [[path|]|e] eqn:Hfind; [| |discriminate].
    2:{ simplify_eq. split; [lia|]. split; [|done].
        intros p Hp. destruct (Hacc p Hp) as (E & _ & ?). by exists E. }
    pose proof (findPath_shortest_walk _ _ _ _ _ Hfind) as Hnew.
    destruct (markIntermediate_spec path visited) as [Hsub _].
    apply IH in Hrun.
    + destruct Hrun as (Hlen & ? & ?). rewrite length_app in Hlen. simpl in Hlen.
      split; [lia | done].
    + intros p Hp. apply elem_of_app in Hp as [Hp|Hp].
      * destruct (Hacc p Hp) as (E & HE & ?). exists E. split; [|done].
        by etrans.
      * apply list_elem_of_singleton in Hp as ->. by exists visited.
    + intros i j p p' Hij Hi Hj.
      apply lookup_snoc_Some in Hj as [[Hjl Hj]|[Hjl <-]].
      * apply lookup_snoc_Some in Hi as [[_ Hi]|[Hil _]]; [|lia].
        by apply (Hsorted i j).
      * apply lookup_snoc_Some in Hi as [[_ Hi]|[_ <-]]; [|done].
        assert (p ∈ acc) as Hp by (apply list_elem_of_lookup; eauto).
        destruct (Hacc p Hp) as (E & HE & _ & _ & Hmin).
        destruct Hnew as ([H0 Hh] & Hl & _).
        apply Hmin; [|done]. split; [done|].
        eapply hops_impl; [|exact Hh].
        intros u v (? & Hv & ?). split; [done|]. split; [|done].
        simpl in *. intros HvE. by apply Hv, HE.
Qed.

(** X14. [findMultiplePaths] returns at most [maxPaths] paths; each is a
    walk from the source to the target whose hops follow graph edges and
    pass the routing predicate; and they come in order of non-decreasing
    length. *)
Theorem findMultiplePaths_paths g s t maxPaths opts paths :
  findMultiplePaths g s t maxPaths opts = Return paths →
  length paths ≤ Z.to_nat maxPaths ∧
  (∀ p, p ∈ paths →
     p !! 0 = Some s ∧ last p = Some t ∧
     hops (λ u v, v ∈ getNeighbors g u ∧
                  _canVisitNeighbor (getNodeType g u) (getNodeType g v)
                    (allowDirectFixtureConnections opts) = true) p) ∧
  (∀ i j p p', i ≤ j → paths !! i = Some p → paths !! j = Some p' →
     length p ≤ length p').
Proof.
  unfold findMultiplePaths. intros H.
  apply multiLoop_paths in H.
  - destruct H as (Hlen & Hwalk & Hsorted). split; [simpl in Hlen; lia|].
    split; [|done]. intros p Hp.
    destruct (Hwalk p Hp) as (E & [H0 Hh] & Hl & _). split; [done|]. split; [done|].
    eapply hops_impl; [|exact Hh]. intros u v (? & _ & ?). done.
  - intros p Hp. by apply elem_of_nil in Hp.
  - intros i j p p' _ Hi. by rewrite lookup_nil in Hi.
Qed.

Lemma findMultiplePaths_paths_witness :
  length [["start"; "left"; "end"]; ["start"; "right"; "end"]] ≤ Z.to_nat 3.
Proof.
  assert (findMultiplePaths diamond_graph "start" "end" 3 default_options =
            Return [["start"; "left"; "end"]; ["start"; "right"; "end"]]) as H
    by (vm_compute; reflexivity).
  exact (proj1 (findMultiplePaths_paths _ _ _ _ _ _ H)).
Defined.

Lemma multiLoop_returns g s t opts remaining :
  hasNode g s = true → hasNode g t = true →
  ∀ visited acc, ∃ paths, multiLoop g s t opts remaining visited acc = Return paths.
Proof.
  intros Hs Ht. induction remaining as [|n IH]; intros visited acc; simpl; [eauto|].
  destruct (findPath_returns g s t
              (mkOptions (allowDirectFixtureConnections opts) (maxDepth opts) visited)
              Hs Ht) as [[p|] ->]; eauto.
Qed.

(** X15. [findMultiplePaths] with [maxPaths] zero or negative returns the
    empty list without looking at the graph, even for ids that are not
    nodes; with a positive [maxPaths] it throws [NODE_NOT_FOUND], like
    [findPath], when an endpoint is missing, and returns otherwise. *)
Theorem findMultiplePaths_error_behaviour g s t maxPaths opts :
  ((maxPaths ≤ 0)%Z → findMultiplePaths g s t maxPaths opts = Return []) ∧
  ((0 < maxPaths)%Z → hasNode g s = false →
   findMultiplePaths g s t maxPaths opts =
     Throw (PathfindingError ("Source node '" +:+ s +:+ "' not found in graph")
              NODE_NOT_FOUND)) ∧
  ((0 < maxPaths)%Z → hasNode g s = true → hasNode g t = false →
   findMultiplePaths g s t maxPaths opts =
     Throw (PathfindingError ("Target node '" +:+ t +:+ "' not found in graph")
              NODE_NOT_FOUND)) ∧
  (hasNode g s = true → hasNode g t = true →
   ∃ paths, findMultiplePaths g s t maxPaths opts = Return paths).
Proof.
  unfold findMultiplePaths. split; [|split; [|split]].
  - intros H. by replace (Z.to_nat maxPaths) with 0 by lia.
  - intros H Hs. destruct (Z.to_nat maxPaths) as [|n] eqn:Hn; [lia|].
    simpl. unfold findPath. by rewrite Hs.
  - intros H Hs Ht. destruct (Z.to_nat maxPaths) as [|n] eqn:Hn; [lia|].
    simpl. unfold findPath. by rewrite Hs, Ht.
  - intros Hs Ht. by apply multiLoop_returns.
Qed.

Lemma findMultiplePaths_error_behaviour_witness :
  findMultiplePaths chain_graph "ghost" "wp_001" 0 default_options = Return [] ∧
  findMultiplePaths chain_graph "ghost" "wp_001" 3 default_options =
    Throw (PathfindingError "Source node 'ghost' not found in graph" NODE_NOT_FOUND).
Proof.
  split.
  - apply (proj1 (findMultiplePaths_error_behaviour chain_graph "ghost" "wp_001" 0
                    default_options)). lia.
  - apply (proj1 (proj2 (findMultiplePaths_error_behaviour chain_graph "ghost"
                           "wp_001" 3 default_options))); [lia|].
    vm_compute; reflexivity.
Defined.

Lemma markIntermediate_short (path : list string) visited :
  length path ≤ 2 → markIntermediate path visited = visited.
Proof.
  intros H. unfold markIntermediate.
  by replace (length path - 2) with 0 by lia.
Qed.

Lemma multiLoop_repeats g s t opts path remaining :
  findPath g s t (mkOptions (allowDirectFixtureConnections opts) (maxDepth opts) ∅) =
    Return (Some path) →
  length path ≤ 2 →
  ∀ acc, multiLoop g s t opts remaining ∅ acc = Return (acc ++ replicate remaining path).
Proof.
  intros Hfind Hlen. induction remaining as [|n IH]; intros acc; simpl.
  - by rewrite app_nil_r.
  - rewrite Hfind, markIntermediate_short by done.
    rewrite IH, <- app_assoc. done.
Qed.

(** X16. No deduplication: when the first path found has no intermediate
    node (the source itself, or a single allowed hop), [findMultiplePaths]
    returns that same path [maxPaths] times. *)
Theorem findMultiplePaths_repeats_short_path g s t maxPaths opts path :
  findPath g s t (mkOptions (allowDirectFixtureConnections opts) (maxDepth opts) ∅) =
    Return (Some path) →
  length path ≤ 2 →
  findMultiplePaths g s t maxPaths opts = Return (replicate (Z.to_nat maxPaths) path).
Proof.
  intros Hfind Hlen. unfold findMultiplePaths.
  by rewrite (multiLoop_repeats g s t opts path _ Hfind Hlen).
Qed.

Lemma findMultiplePaths_repeats_short_path_witness :
  findMultiplePaths chain_graph "wp_001" "wp_002" 3 default_options =
    Return (replicate (Z.to_nat 3) ["wp_001"; "wp_002"]).
Proof.
  apply findMultiplePaths_repeats_short_path.
  - vm_compute; reflexivity.
  - simpl; lia.
Defined.

(** ** [getPathDetails] *)

Lemma filter_path_array (P : string → Prop) (P' : jsval → Prop)
    `{!∀ x, Decision (P x)} `{!∀ v, Decision (P' v)} (p : list string) :
  (∀ x, P' (JString x) ↔ P x) →
  length (filter P' (map JString p)) = length (filter P p).
Proof.
  intros HP. induction p as [|x p IH]; simpl; [done|].
  rewrite !filter_cons. destruct (decide (P x)) as [Hx|Hx].
  - rewrite decide_True by (by apply HP). simpl. by rewrite IH.
  - rewrite decide_False by (by rewrite HP). done.
Qed.

Lemma array_get_last x elems :
  array_get (x :: elems) (length elems) = default x (last elems).
Proof.
  unfold array_get.
  replace ((x :: elems) !! length elems) with (last (x :: elems))
    by (by rewrite last_lookup).
  rewrite last_cons. by destruct (last elems).
Qed.

(** X18. [getPathDetails] returns [null] exactly when its argument is not a
    non-empty array, so in particular for the [null] of [findPath];
    for a non-empty array it reports the number of elements, one record per
    element in order, the first and last elements as start and end, and the
    number of elements of type [WAYPOINT]. *)
Theorem getPathDetails_null_iff g path :
  (getPathDetails g path = None ↔ ¬ ∃ x elems, path = JArray (x :: elems)) ∧
  (∀ x elems, path = JArray (x :: elems) →
     ∃ d, getPathDetails g path = Some d ∧
          details_path d = path ∧
          details_length d = S (length elems) ∧
          map info_id (details_nodes d) = x :: elems ∧
          endpoint_id (summary_start (details_summary d)) = x ∧
          endpoint_id (summary_end (details_summary d)) = default x (last elems) ∧
          waypointsUsed (details_summary d) ≤ S (length elems)).
Proof.
  assert (∀ x elems, path = JArray (x :: elems) →
     ∃ d, getPathDetails g path = Some d ∧
          details_path d = path ∧
          details_length d = S (length elems) ∧
          map info_id (details_nodes d) = x :: elems ∧
          endpoint_id (summary_start (details_summary d)) = x ∧
          endpoint_id (summary_end (details_summary d)) = default x (last elems) ∧
          waypointsUsed (details_summary d) ≤ S (length elems)) as Hsome.
  { intros x elems ->. unfold getPathDetails. simpl.
    eexists. split; [reflexivity|]. simpl.
    split; [done|]. split; [done|]. split.
    - f_equal. rewrite map_map. simpl. apply map_id.
    - split; [done|]. split.
      + rewrite Nat.sub_0_r. apply array_get_last.
      + apply (length_filter (λ nodeId, getNodeType_of g nodeId = WAYPOINT) (x :: elems)). }
  split; [|exact Hsome]. split.
  - intros Hnone (x & elems & Hpath).
    destruct (Hsome x elems Hpath) as (d & Hd & _). congruence.
  - intros Hno. unfold getPathDetails.
    destruct path as [| | | | | |[|x elems]|]; simpl; rewrite ?orb_true_r; try done.
    destruct Hno. eauto.
Qed.

Lemma getPathDetails_null_iff_witness :
  ∃ d, getPathDetails chain_graph (path_array ["wp_001"; "wp_002"]) = Some d ∧
       details_path d = path_array ["wp_001"; "wp_002"] ∧
       details_length d = 2 ∧
       map info_id (details_nodes d) = [JString "wp_001"; JString "wp_002"] ∧
       endpoint_id (summary_start (details_summary d)) = JString "wp_001" ∧
       endpoint_id (summary_end (details_summary d)) = JString "wp_002" ∧
       waypointsUsed (details_summary d) ≤ 2.
Proof.
  exact (proj2 (getPathDetails_null_iff chain_graph (path_array ["wp_001"; "wp_002"]))
           (JString "wp_001") [JString "wp_002"] eq_refl).
Defined.

Lemma length_filter_inner (P : string → Prop) `{!∀ x, Decision (P x)} s mid t :
  ¬ P s → ¬ P t → length (filter P (s :: mid ++ [t])) ≤ length mid.
Proof.
  intros Hs Ht. rewrite filter_cons, decide_False by done.
  rewrite filter_app, length_app, filter_cons, decide_False by done.
  simpl. pose proof (length_filter P mid). lia.
Qed.

(** X19. The details of a path returned by [findPath]: [getPathDetails]
    succeeds on it, its length is the number of nodes, start and end are the
    source and the target with their types, and [waypointsUsed] counts the
    waypoints of the path. Between two distinct fixtures, with
    [allowDirectFixtureConnections] unset, [waypointsUsed] is at least 1 and
    at most the number of nodes minus 2. *)
Theorem getPathDetails_of_findPath g s t opts p :
  findPath g s t opts = Return (Some p) →
  ∃ d, getPathDetails g (path_array p) = Some d ∧
       details_length d = length p ∧
       summary_start (details_summary d) = mkEndpoint (JString s) (getNodeType g s) ∧
       summary_end (details_summary d) = mkEndpoint (JString t) (getNodeType g t) ∧
       waypointsUsed (details_summary d) =
         length (filter (λ x, getNodeType g x = WAYPOINT) p) ∧
       (_isFixtureType (getNodeType g s) = true →
        _isFixtureType (getNodeType g t) = true → s ≠ t →
        allowDirectFixtureConnections opts = false →
        1 ≤ waypointsUsed (details_summary d) ≤ length p - 2).
Proof.
  intros H. apply findPath_walk in H as (H0 & Hl & Hh).
  destruct p as [|x p]; [discriminate|]. simpl in H0. simplify_eq.
  unfold getPathDetails, path_array. simpl. eexists. split; [reflexivity|]. simpl.
  assert (length (filter (λ nodeId, getNodeType_of g nodeId = WAYPOINT)
                    (JString s :: map JString p)) =
          length (filter (λ x, getNodeType g x = WAYPOINT) (s :: p))) as Hcount.
  { apply (filter_path_array (λ x, getNodeType g x = WAYPOINT)
             (λ v, getNodeType_of g v = WAYPOINT) (s :: p)). done. }
  assert (array_get (JString s :: map JString p) (length (map JString p) - 0) = JString t)
    as Hend.
  { unfold array_get. rewrite Nat.sub_0_r, length_map.
    rewrite last_lookup in Hl. simpl in Hl.
    change (JString s :: map JString p) with (map JString (s :: p)).
    by rewrite list_lookup_fmap, Hl. }
  split; [by rewrite length_map|]. split; [done|]. split; [by rewrite Hend|].
  split; [exact Hcount|].
  intros Hfs Hft Hst Hflag. rewrite Hcount.
  destruct p as [|n p]; [simpl in Hl; congruence|].
  destruct (Hh 0 s n eq_refl eq_refl) as (_ & _ & Hcan).
  rewrite Hflag in Hcan.
  apply canVisitNeighbor_from_fixture in Hcan as [Hn|[? _]]; [|done|done].
  assert (getNodeType g s ≠ WAYPOINT) as Hs' by (intros E; by rewrite E in Hfs).
  assert (getNodeType g t ≠ WAYPOINT) as Ht' by (intros E; by rewrite E in Hft).
  split.
  - rewrite filter_cons, decide_False by done.
    rewrite filter_cons, decide_True by done. simpl. lia.
  - assert (∃ mid, n :: p = mid ++ [t]) as [mid Hmid].
    { apply last_Some. by rewrite <- Hl. }
    rewrite Hmid.
    pose proof (length_filter_inner (λ x, getNodeType g x = WAYPOINT) s mid t Hs' Ht').
    simpl. rewrite length_app. simpl. lia.
Qed.

Lemma getPathDetails_of_findPath_witness :
  ∃ d, getPathDetails chain_graph
         (path_array ["di_box_1"; "wp_001"; "wp_002"; "wp_003"; "cabinet_1"]) = Some d ∧
       details_length d = 5 ∧ 1 ≤ waypointsUsed (details_summary d) ≤ 3.
Proof.
  assert (findPath chain_graph "di_box_1" "cabinet_1" default_options =
            Return (Some ["di_box_1"; "wp_001"; "wp_002"; "wp_003"; "cabinet_1"])) as H
    by (vm_compute; reflexivity).
  destruct (getPathDetails_of_findPath _ _ _ _ _ H) as (d & Hd & Hlen & _ & _ & _ & Hw).
  exists d. split; [exact Hd|]. split; [exact Hlen|].
  apply Hw.
  - vm_compute; reflexivity.
  - vm_compute; reflexivity.
  - clear. intros E. discriminate E.
  - reflexivity.
Defined.

(** ** [determineNodeType] *)

Lemma lower_upper_ascii c : lower_ascii (upper_ascii c) = lower_ascii c.
Proof. destruct c as [[] [] [] [] [] [] [] []]; reflexivity. Qed.

Lemma lower_lower_ascii c : lower_ascii (lower_ascii c) = lower_ascii c.
Proof. destruct c as [[] [] [] [] [] [] [] []]; reflexivity. Qed.

Lemma toLowerCase_toUpperCase s : toLowerCase (toUpperCase s) = toLowerCase s.
Proof. induction s as [|c s IH]; simpl; [done|]. by rewrite lower_upper_ascii, IH. Qed.

Lemma toLowerCase_idempotent s : toLowerCase (toLowerCase s) = toLowerCase s.
Proof. induction s as [|c s IH]; simpl; [done|]. by rewrite lower_lower_ascii, IH. Qed.

(** X20. [determineNodeType] ignores the case of ASCII letters: an id, its
    upper-case form and its lower-case form get the same type. *)
Theorem determineNodeType_case_insensitive s :
  determineNodeType (JString (toUpperCase s)) = determineNodeType (JString s) ∧
  determineNodeType (JString (toLowerCase s)) = determineNodeType (JString s).
Proof.
  unfold determineNodeType. simpl.
  rewrite toLowerCase_toUpperCase, toLowerCase_idempotent.
  by destruct s.
Qed.

Lemma startsWith_head a pat s :
  startsWith (String a pat) s = true → ∃ s', s = String a s'.
Proof.
  destruct s as [|b s']; simpl; [discriminate|].
  intros H. apply andb_true_iff in H as [H _]. apply Ascii.eqb_eq in H as ->. eauto.
Qed.

Lemma startsWith_exclusive a b pat pat' s :
  a ≠ b → startsWith (String a pat) s = true → startsWith (String b pat') s = false.
Proof.
  intros Hab H. destruct (startsWith_head _ _ _ H) as [s' ->]. simpl.
  by rewrite (proj2 (Ascii.eqb_neq b a)) by congruence.
Qed.

(** X21. The prefixes tested by [determineNodeType] exclude one another, so
    each type is decided by its own pattern on the lower-cased id:
    [wp_] for a waypoint, [di_] for a DI box, [col_] together with an
    occurrence of [cab_] for a cabinet, [fossil_] for a fossil; everything
    else, the empty string and every value that is not a string included, is
    of unknown type. *)
Theorem determineNodeType_patterns v :
  (determineNodeType v = WAYPOINT ↔
   ∃ s, v = JString s ∧ startsWith "wp_" (toLowerCase s) = true) ∧
  (determineNodeType v = DI_BOX ↔
   ∃ s, v = JString s ∧ startsWith "di_" (toLowerCase s) = true) ∧
  (determineNodeType v = CABINET ↔
   ∃ s, v = JString s ∧ startsWith "col_" (toLowerCase s) = true ∧
        includes "cab_" (toLowerCase s) = true) ∧
  (determineNodeType v = FOSSIL ↔
   ∃ s, v = JString s ∧ startsWith "fossil_" (toLowerCase s) = true).
Proof.
  destruct v as [| | | | |s| |];
    try (simpl; repeat split; first [discriminate | intros (? & ? & _); discriminate]).
  unfold determineNodeType.
  change (truthy (JString s)) with (negb (String.eqb s "")).
  destruct (String.eqb s "") eqn:Hempty; cbn [negb]; cbv zeta.
  { apply String.eqb_eq in Hempty as ->.
    repeat split; first [discriminate | intros (s' & Hs & H); simplify_eq; simpl in *;
                                         intuition discriminate]. }
  set (id := toLowerCase s).
  assert (∀ P : string → Prop, (∃ s', JString s = JString s' ∧ P (toLowerCase s')) ↔ P id)
    as Hex.
  { intros P. split; [intros (s' & Hs & H); by simplify_eq | intros H; eauto]. }
  rewrite (Hex (λ x, startsWith "wp_" x = true)),
          (Hex (λ x, startsWith "di_" x = true)),
          (Hex (λ x, startsWith "col_" x = true ∧ includes "cab_" x = true)),
          (Hex (λ x, startsWith "fossil_" x = true)).
  clear Hex. clearbody id.
  assert (∀ a b pat pat', startsWith (String a pat) id = true → a ≠ b →
            startsWith (String b pat') id = false) as Hx
    by (intros; by eapply startsWith_exclusive).
  destruct (startsWith "wp_" id) eqn:Hwp.
  { rewrite (Hx _ _ "p_" "i_" Hwp), (Hx _ _ "p_" "ol_" Hwp),
            (Hx _ _ "p_" "ossil_" Hwp) by discriminate.
    intuition discriminate. }
  destruct (startsWith "di_" id) eqn:Hdi.
  { rewrite (Hx _ _ "i_" "ol_" Hdi), (Hx _ _ "i_" "ossil_" Hdi) by discriminate.
    intuition discriminate. }
  destruct (startsWith "col_" id) eqn:Hcol.
  { rewrite (Hx _ _ "ol_" "ossil_" Hcol) by discriminate.
    destruct (includes "cab_" id); cbn [andb]; intuition discriminate. }
  cbn [andb]. destruct (startsWith "fossil_" id); intuition discriminate.
Qed.

Lemma determineNodeType_patterns_witness :
  determineNodeType (JString "COL_12_Cab_3") = CABINET ∧
  determineNodeType (JString "Fossil_Dig_2") = FOSSIL.
Proof.
  split.
  - apply (proj1 (proj2 (proj2 (determineNodeType_patterns (JString "COL_12_Cab_3"))))).
    exists "COL_12_Cab_3". repeat split; reflexivity.
  - apply (proj2 (proj2 (proj2 (determineNodeType_patterns (JString "Fossil_Dig_2"))))).
    exists "Fossil_Dig_2". repeat split; reflexivity.
Defined.

(** ** The graph builder *)

Lemma hasNode_elem g x : hasNode g x = true ↔ x ∈ nodes g.
Proof. apply bool_decide_eq_true. Qed.

Lemma addNode_null_returns g id type :
  trim id ≠ "" → (addNode g (JString id) type JNull).2 = Return tt.
Proof.
  intros Hid. unfold addNode. rewrite (trim_nonempty _ Hid). simpl.
  by destruct (adjacencyList g !! id).
Qed.

Lemma addNode_not_string g v type c :
  (∀ id, v ≠ JString id) →
  addNode g v type c =
    (g, Throw (PathfindingError "Node ID must be a non-empty string" INVALID_NODE_ID)).
Proof. intros Hv. destruct v; try done. by destruct (Hv s). Qed.

Lemma addNode_blank g id type c :
  trim id = "" →
  addNode g (JString id) type c =
    (g, Throw (PathfindingError "Node ID must be a non-empty string" INVALID_NODE_ID)).
Proof. intros Hid. unfold addNode. by rewrite Hid. Qed.

(** An id of white space only is refused, whatever the white space and
    whatever the coordinates. *)
Lemma addNode_unicode_blank g type c :
  ∀ id, id ∈ [" "; nbsp_id; em_space_id; bom_id] →
        addNode g (JString id) type c =
          (g, Throw (PathfindingError "Node ID must be a non-empty string"
                       INVALID_NODE_ID)).
Proof.
  intros id Hid. apply addNode_blank. apply trim_blank_iff.
  repeat (apply elem_of_cons in Hid as [->|Hid]; [vm_compute; reflexivity|]).
  by apply elem_of_nil in Hid.
Qed.

Lemma graph_extends_refl g : graph_extends g g.
Proof. by repeat split. Qed.

Lemma graph_extends_trans g1 g2 g3 :
  graph_extends g1 g2 → graph_extends g2 g3 → graph_extends g1 g3.
Proof.
  intros (Hn & Hty & Hnb) (Hn' & Hty' & Hnb'). split; [by etrans|]. split.
  - intros x Hx. rewrite Hty' by (by apply Hn). by apply Hty.
  - intros u v Hv. by apply Hnb', Hnb.
Qed.

Lemma addNode_new_extends g id type c :
  graph_wf g → hasNode g id = false →
  (addNode g (JString id) type c).2 = Return tt →
  graph_extends g (addNode g (JString id) type c).1 ∧
  hasNode (addNode g (JString id) type c).1 id = true ∧
  getNodeType (addNode g (JString id) type c).1 id = type.
Proof.
  intros Hwf Hid Hret.
  destruct (addNode_returns _ _ _ _ Hret) as (Hn & Hty & Hadj & _).
  set (g' := (addNode g (JString id) type c).1) in *.
  assert (id ∉ nodes g) as Hnot.
  { intros H. unfold hasNode in Hid. by rewrite bool_decide_eq_true_2 in Hid. }
  assert (adjacencyList g !! id = None) as Hnone.
  { apply not_elem_of_dom. by rewrite (wf_adjacency _ Hwf). }
  rewrite Hnone in Hadj.
  split; [split; [|split]|split].
  - rewrite Hn. apply union_subseteq_r.
  - intros x Hx. unfold getNodeType. rewrite Hty, lookup_insert_ne; [done|].
    intros ->. done.
  - intros u v Hv. rewrite (getNeighbors_insert g' g id [] u Hadj).
    case_decide as Hu; [|done]. subst u.
    unfold getNeighbors in Hv. rewrite Hnone in Hv. by apply elem_of_nil in Hv.
  - apply bool_decide_eq_true. rewrite Hn. by apply elem_of_union_l, elem_of_singleton.
  - unfold getNodeType. by rewrite Hty, lookup_insert_eq.
Qed.

(** What a call of [ensureNode] that returns has done. *)
Lemma ensureNode_returns g v g' :
  ensureNode g v = (g', Return tt) → graph_wf g → symmetric_graph g →
  ∃ id, v = JString id ∧ graph_wf g' ∧ symmetric_graph g' ∧
        hasNode g' id = true ∧ graph_extends g g' ∧
        (hasNode g id = false → getNodeType g' id = determineNodeType v) ∧
        (hasNode g id = false → trim id ≠ "") ∧
        (∀ x, hasNode g' x = true → hasNode g x = true ∨ x = id).
Proof.
  unfold ensureNode. intros H Hwf Hsym.
  destruct v as [| | | | |id| |];
    try (cbn [hasNode_of negb] in H; rewrite addNode_not_string in H by done;
         discriminate).
  exists id. split; [done|]. cbn [hasNode_of] in H.
  destruct (hasNode g id) eqn:Hid; cbn [negb] in H.
  - simplify_eq. split; [done|]. split; [done|]. split; [done|].
    split; [apply graph_extends_refl|]. split; [intros ?; congruence|].
    split; [intros ?; congruence | by left].
  - assert ((addNode g (JString id) (determineNodeType (JString id)) JNull).2 = Return tt)
      as Hret by (by rewrite H).
    assert (g' = (addNode g (JString id) (determineNodeType (JString id)) JNull).1)
      as -> by (by rewrite H).
    destruct (addNode_new_extends g id _ JNull Hwf Hid Hret) as (Hext & Hhas & Hty).
    split; [by apply addNode_wf|]. split; [by apply addNode_symmetric|].
    split; [done|]. split; [done|]. split; [done|]. split.
    + intros _ Hblank. rewrite (addNode_blank _ _ _ _ Hblank) in Hret. discriminate.
    + intros x Hx. apply hasNode_elem in Hx.
      destruct (addNode_returns _ _ _ _ Hret) as (Hn & _). rewrite Hn in Hx.
      apply elem_of_union in Hx as [Hx|Hx].
      * right. by apply elem_of_singleton in Hx.
      * left. by apply hasNode_elem.
Qed.

Lemma addEdge_extends g s t b :
  graph_wf g → hasNode g s = true → hasNode g t = true →
  graph_extends g (addEdge g s t b).1.
Proof.
  intros Hwf Hs Ht.
  destruct (addEdge_returns g s t b Hwf Hs Ht) as (_ & Hn & Hty & _ & _ & _ & Hnb).
  split; [by rewrite Hn|]. split.
  - intros x _. unfold getNodeType. by rewrite Hty.
  - intros u v Hv. rewrite Hnb.
    repeat case_decide; rewrite ?elem_of_ordered_add; naive_solver.
Qed.

Lemma processLine_returns g wps feature g' wps' :
  processLine g wps feature = (g', wps', Return tt) →
  graph_wf g → symmetric_graph g →
  graph_wf g' ∧ symmetric_graph g' ∧ graph_extends g g'.
Proof.
  unfold processLine. intros H Hwf Hsym.
  destruct (geometry feature) as [geo|]; [|discriminate].
  destruct (negb (is_literal (geometry_type geo) "LineString"));
    [simplify_eq; by auto using graph_extends_refl|].
  destruct ((is_literal (wayfinding_type feature) "walking_path"
             || is_literal (wayfinding_type feature) "connection_line")
            && truthy (line_source feature) && truthy (line_target feature));
    [|simplify_eq; by auto using graph_extends_refl].
  destruct (ensureNode g (line_source feature)) as [g1 [[]|e1]] eqn:H1; [|discriminate].
  destruct (ensureNode_returns _ _ _ H1 Hwf Hsym)
    as (s & Hs & Hwf1 & Hsym1 & Hhas1 & Hext1 & _).
  destruct (ensureNode g1 (line_target feature)) as [g2 [[]|e2]] eqn:H2; [|discriminate].
  destruct (ensureNode_returns _ _ _ H2 Hwf1 Hsym1)
    as (t & Ht & Hwf2 & Hsym2 & Hhas2 & Hext2 & _).
  rewrite Hs, Ht in H.
  assert (hasNode g2 s = true) as Hhas1'.
  { apply hasNode_elem. eapply elem_of_weaken; [|exact (proj1 Hext2)].
    by apply hasNode_elem. }
  pose proof (addEdge_wf g2 s t true Hwf2) as Hwf3.
  pose proof (addEdge_symmetric g2 s t Hwf2 Hsym2) as Hsym3.
  pose proof (addEdge_extends g2 s t true Hwf2 Hhas1' Hhas2) as Hext3.
  destruct (addEdge g2 s t true) as [g3 [[]|e3]]; [|discriminate].
  simpl in *.
  assert (g' = g3) as -> by (by destruct (_ && _); simplify_eq).
  split; [done|]. split; [done|].
  eapply graph_extends_trans; [exact Hext1|].
  eapply graph_extends_trans; [exact Hext2 | exact Hext3].
Qed.

Lemma processLines_returns features :
  ∀ g wps g' wps',
    _processLines features g wps = (g', wps', Return tt) →
    graph_wf g → symmetric_graph g →
    graph_wf g' ∧ symmetric_graph g' ∧ graph_extends g g'.
Proof.
  induction features as [|f rest IH]; intros g wps g' wps' H Hwf Hsym; simpl in H.
  - simplify_eq. by auto using graph_extends_refl.
  - destruct (processLine g wps f) as [[g1 wps1] [[]|e]] eqn:Hf; [|discriminate].
    destruct (processLine_returns _ _ _ _ _ Hf Hwf Hsym) as (Hwf1 & Hsym1 & Hext1).
    destruct (IH _ _ _ _ H Hwf1 Hsym1) as (? & ? & ?).
    split; [done|]. split; [done|]. by eapply graph_extends_trans.
Qed.

Lemma processPoint_returns g feature g' :
  processPoint g feature = (g', Return tt) →
  graph_wf g → symmetric_graph g → graph_wf g' ∧ symmetric_graph g'.
Proof.
  unfold processPoint. intros H Hwf Hsym.
  destruct (geometry feature) as [geo|]; [|discriminate].
  assert (∀ type, addNode g (alt_name feature) type (geometry_coordinates geo) =
                    (g', Return tt) → graph_wf g' ∧ symmetric_graph g') as Hadd.
  { intros type Ha. destruct (alt_name feature) as [| | | | |id| |] eqn:Hname;
      try (rewrite addNode_not_string in Ha by done; discriminate).
    assert ((addNode g (JString id) type (geometry_coordinates geo)).2 = Return tt)
      as Hret by (by rewrite Ha).
    assert (g' = (addNode g (JString id) type (geometry_coordinates geo)).1)
      as -> by (by rewrite Ha).
    split; [by apply addNode_wf | by apply addNode_symmetric]. }
  destruct (negb (is_literal (geometry_type geo) "Point")); [by simplify_eq|].
  destruct (is_literal (wayfinding_type feature) "walking_grid_point"
            && truthy (alt_name feature)); [by eapply Hadd|].
  destruct (truthy (alt_name feature)); [by eapply Hadd | by simplify_eq].
Qed.

Lemma processPoints_returns features :
  ∀ g g', _processPoints features g = (g', Return tt) →
          graph_wf g → symmetric_graph g → graph_wf g' ∧ symmetric_graph g'.
Proof.
  induction features as [|f rest IH]; intros g g' H Hwf Hsym; simpl in H.
  - by simplify_eq.
  - destruct (processPoint g f) as [g1 [[]|e]] eqn:Hf; [|discriminate].
    destruct (processPoint_returns _ _ _ Hf Hwf Hsym) as [Hwf1 Hsym1].
    by apply (IH g1).
Qed.

(** X22. The first two passes of [buildGraph]: when [_processPoints] and
    then [_processLines] return, from the empty graph, the graph they have
    built is well formed and has every edge in both directions; and
    [_processLines] only extends the graph it is given: nodes stay, with
    their type and their neighbours. *)
Theorem buildGraph_passes features g1 g2 walkingPaths :
  _processPoints features empty_graph = (g1, Return tt) →
  _processLines features g1 [] = (g2, walkingPaths, Return tt) →
  graph_wf g2 ∧ symmetric_graph g2 ∧
  nodes g1 ⊆ nodes g2 ∧
  (∀ x, x ∈ nodes g1 → getNodeType g2 x = getNodeType g1 x) ∧
  (∀ u v, v ∈ getNeighbors g1 u → v ∈ getNeighbors g2 u).
Proof.
  intros H1 H2.
  destruct (processPoints_returns _ _ _ H1 empty_graph_wf empty_graph_symmetric)
    as [Hwf1 Hsym1].
  by destruct (processLines_returns _ _ _ _ _ H2 Hwf1 Hsym1) as (? & ? & ? & ? & ?).
Qed.

Lemma buildGraph_passes_witness :
  let g1 := (_processPoints sample_features empty_graph).1 in
  let g2 := (_processLines sample_features g1 []).1.1 in
  graph_wf g2 ∧ symmetric_graph g2 ∧
  nodes g1 ⊆ nodes g2 ∧
  (∀ x, x ∈ nodes g1 → getNodeType g2 x = getNodeType g1 x) ∧
  (∀ u v, v ∈ getNeighbors g1 u → v ∈ getNeighbors g2 u).
Proof.
  intros g1 g2.
  apply (buildGraph_passes sample_features g1 g2
           (_processLines sample_features g1 []).1.2).
  - vm_compute; reflexivity.
  - vm_compute; reflexivity.
Defined.

Lemma ensureNode_string_returns g id :
  trim id ≠ "" → (ensureNode g (JString id)).2 = Return tt.
Proof.
  intros Hid. unfold ensureNode. cbn [hasNode_of].
  destruct (hasNode g id); cbn [negb]; [done|]. by apply addNode_null_returns.
Qed.

Lemma trim_nonempty_truthy id : trim id ≠ "" → truthy (JString id) = true.
Proof. intros H. destruct id; [done|]. reflexivity. Qed.

(** X23. A feature with a [LineString] geometry, of type [walking_path] or
    [connection_line], between two ids that are strings with a character
    other than white space, on a well-formed symmetric graph: [processLine]
    returns, both ids are nodes, each is a neighbour of the other, a node it
    had to create has the type that [determineNodeType] gives its id, and a
    walking path is recorded exactly for type [walking_path] with truthy
    coordinates. *)
Theorem processLine_connects g wps feature geo s t :
  graph_wf g → symmetric_graph g →
  geometry feature = Some geo →
  is_literal (geometry_type geo) "LineString" = true →
  is_literal (wayfinding_type feature) "walking_path"
  || is_literal (wayfinding_type feature) "connection_line" = true →
  line_source feature = JString s → line_target feature = JString t →
  trim s ≠ "" → trim t ≠ "" →
  ∃ g',
    processLine g wps feature =
      (g',
       (if is_literal (wayfinding_type feature) "walking_path"
           && truthy (geometry_coordinates geo)
        then wps ++ [mkWalkingPath (geometry_coordinates geo) (JString s)
                       (JString t) "walking_path"]
        else wps),
       Return tt) ∧
    hasNode g' s = true ∧ hasNode g' t = true ∧
    t ∈ getNeighbors g' s ∧ s ∈ getNeighbors g' t ∧
    (hasNode g s = false → getNodeType g' s = determineNodeType (JString s)) ∧
    (hasNode g t = false → getNodeType g' t = determineNodeType (JString t)).
Proof.
  intros Hwf Hsym Hgeo Hline Hkind Hsrc Htgt Hs Ht.
  unfold processLine. rewrite Hgeo, Hline, Hkind, Hsrc, Htgt.
  rewrite !trim_nonempty_truthy by done. cbn [negb andb].
  pose proof (ensureNode_string_returns g s Hs) as Hr1.
  destruct (ensureNode g (JString s)) as [g1 c1] eqn:H1. simpl in Hr1. subst c1.
  destruct (ensureNode_returns _ _ _ H1 Hwf Hsym)
    as (s' & Hs' & Hwf1 & Hsym1 & Hhas1 & Hext1 & Hty1 & _ & Honly1).
  simplify_eq.
  pose proof (ensureNode_string_returns g1 t Ht) as Hr2.
  destruct (ensureNode g1 (JString t)) as [g2 c2] eqn:H2. simpl in Hr2. subst c2.
  destruct (ensureNode_returns _ _ _ H2 Hwf1 Hsym1)
    as (t' & Ht' & Hwf2 & Hsym2 & Hhas2 & Hext2 & Hty2 & _ & _).
  simplify_eq.
  assert (hasNode g2 s' = true) as Hhas1'.
  { apply hasNode_elem. eapply elem_of_weaken; [|exact (proj1 Hext2)].
    by apply hasNode_elem. }
  destruct (addEdge_returns g2 s' t' true Hwf2 Hhas1' Hhas2)
    as (Hret & Hn & Hty & _ & _ & _ & Hnb).
  destruct (addEdge g2 s' t' true) as [g3 c3]. simpl in Hret, Hn, Hty, Hnb. subst c3.
  exists g3. split; [by destruct (_ && _)|].
  assert (∀ x, getNodeType g3 x = getNodeType g2 x) as Hty3
    by (intros x; unfold getNodeType; by rewrite Hty).
  split; [unfold hasNode; by rewrite Hn|]. split; [unfold hasNode; by rewrite Hn|].
  split; [|split; [|split]].
  - rewrite Hnb. repeat case_decide; rewrite ?elem_of_ordered_add; naive_solver.
  - rewrite Hnb. repeat case_decide; rewrite ?elem_of_ordered_add; naive_solver.
  - intros Hnew. rewrite Hty3.
    rewrite (proj1 (proj2 Hext2)) by (by apply hasNode_elem). by apply Hty1.
  - intros Hnew. rewrite Hty3.
    destruct (hasNode g1 t') eqn:Hg1t; [|by apply Hty2].
    destruct (Honly1 t' Hg1t) as [?| ->]; [congruence|].
    rewrite (proj1 (proj2 Hext2)) by (by apply hasNode_elem). by apply Hty1.
Qed.

Lemma processLine_connects_witness :
  ∃ g',
    processLine empty_graph []
      (mkFeature
         (Some (mkGeometry (JString "LineString") (JArray [JArray []; JArray []])))
         (JString "walking_path") JUndefined (JString "wp_001") (JString "cab_9")) =
      (g',
       [mkWalkingPath (JArray [JArray []; JArray []]) (JString "wp_001")
          (JString "cab_9") "walking_path"],
       Return tt) ∧
    hasNode g' "wp_001" = true ∧ hasNode g' "cab_9" = true ∧
    "cab_9" ∈ getNeighbors g' "wp_001" ∧ "wp_001" ∈ getNeighbors g' "cab_9" ∧
    (hasNode empty_graph "wp_001" = false →
     getNodeType g' "wp_001" = determineNodeType (JString "wp_001")) ∧
    (hasNode empty_graph "cab_9" = false →
     getNodeType g' "cab_9" = determineNodeType (JString "cab_9")).
Proof.
  apply (processLine_connects empty_graph []
           (mkFeature
              (Some (mkGeometry (JString "LineString") (JArray [JArray []; JArray []])))
              (JString "walking_path") JUndefined (JString "wp_001") (JString "cab_9"))
           (mkGeometry (JString "LineString") (JArray [JArray []; JArray []]))
           "wp_001" "cab_9" empty_graph_wf empty_graph_symmetric);
    first [reflexivity | (vm_compute; discriminate)].
Defined.

Lemma ensureNode_invalid g v :
  (¬ ∃ id, v = JString id ∧ (hasNode g id = true ∨ trim id ≠ "")) →
  ensureNode g v =
    (g, Throw (PathfindingError "Node ID must be a non-empty string" INVALID_NODE_ID)).
Proof.
  intros Hv. unfold ensureNode.
  destruct v as [| | | | |id| |];
    try (cbn [hasNode_of negb]; by apply addNode_not_string).
  cbn [hasNode_of]. destruct (hasNode g id) eqn:Hid.
  - destruct Hv. exists id. auto.
  - cbn [negb]. apply addNode_blank.
    destruct (decide (trim id = "")) as [?|Hne]; [done|].
    destruct Hv. exists id. auto.
Qed.

Lemma usable_id_dec g v :
  (∃ id, v = JString id ∧ (hasNode g id = true ∨ trim id ≠ "")) ∨
  ¬ (∃ id, v = JString id ∧ (hasNode g id = true ∨ trim id ≠ "")).
Proof.
  destruct v as [| | | | |id| |]; try (right; intros (? & ? & _); discriminate).
  destruct (hasNode g id) eqn:Hid; [left; eauto|].
  destruct (decide (trim id = "")) as [Hblank|Hne]; [|left; eauto].
  right. intros (id' & Hid' & [?|?]); simplify_eq; congruence.
Qed.

(** X24. What [processLine] leaves alone and what makes it throw. A feature
    without geometry makes it throw a [TypeError], the graph and the walking
    paths left as they were. A feature with a geometry that is not a
    [LineString], or whose type is neither [walking_path] nor
    [connection_line], or whose source or target is falsy, changes nothing.
    Otherwise, on a well-formed symmetric graph, a source or a target that
    is neither a node nor a string with a character other than white space
    makes it throw [INVALID_NODE_ID], with no edge added and no walking
    path recorded. *)
Theorem processLine_skips_or_throws g wps feature :
  let taken geo :=
    is_literal (geometry_type geo) "LineString"
    && ((is_literal (wayfinding_type feature) "walking_path"
         || is_literal (wayfinding_type feature) "connection_line")
        && truthy (line_source feature) && truthy (line_target feature)) in
  let usable v := ∃ id, v = JString id ∧ (hasNode g id = true ∨ trim id ≠ "") in
  (geometry feature = None →
   processLine g wps feature = (g, wps, Throw TypeError)) ∧
  (∀ geo, geometry feature = Some geo → taken geo = false →
   processLine g wps feature = (g, wps, Return tt)) ∧
  (∀ geo, geometry feature = Some geo → taken geo = true →
   graph_wf g → symmetric_graph g →
   ¬ (usable (line_source feature) ∧ usable (line_target feature)) →
   (processLine g wps feature).2 =
     Throw (PathfindingError "Node ID must be a non-empty string" INVALID_NODE_ID) ∧
   (processLine g wps feature).1.2 = wps ∧
   ∀ u, getNeighbors (processLine g wps feature).1.1 u = getNeighbors g u).
Proof.
  intros taken usable. subst taken. unfold processLine. split; [|split].
  - by intros ->.
  - intros geo -> H. destruct (is_literal (geometry_type geo) "LineString"); [|done].
    cbn [andb negb] in *. by rewrite H.
  - intros geo -> H Hwf Hsym Hbad.
    apply andb_true_iff in H as [-> ->]. cbn [negb].
    destruct (usable_id_dec g (line_source feature)) as [Hsrc|Hsrc].
    + assert (¬ usable (line_target feature)) as Htgt by tauto.
      destruct Hsrc as (s & Hs & Hok).
      destruct (ensureNode g (line_source feature)) as [g1 [[]|e1]] eqn:H1.
      * destruct (ensureNode_returns _ _ _ H1 Hwf Hsym)
          as (s' & Hs' & Hwf1 & Hsym1 & Hhas1 & Hext1 & _ & Hnew1 & Honly1).
        rewrite Hs in Hs'. simplify_eq.
        rewrite (ensureNode_invalid g1 (line_target feature)).
        -- simpl. split; [done|]. split; [done|].
           intros u. unfold ensureNode in H1. rewrite Hs in H1. cbn [hasNode_of] in H1.
           destruct (hasNode g s') eqn:Hgs; cbn [negb] in H1; [by simplify_eq|].
           assert ((addNode g (JString s') (determineNodeType (JString s')) JNull).2
                   = Return tt) as Hret by (by rewrite H1).
           destruct (addNode_returns _ _ _ _ Hret) as (_ & _ & Hadj & _).
           rewrite H1 in Hadj. simpl in Hadj.
           assert (adjacencyList g !! s' = None) as Hnone.
           { apply not_elem_of_dom. rewrite (wf_adjacency _ Hwf).
             intros Hin. apply hasNode_elem in Hin. congruence. }
           rewrite Hnone in Hadj.
           rewrite (getNeighbors_insert g1 g s' [] u Hadj).
           case_decide as Hu; [|done]. subst u.
           unfold getNeighbors. by rewrite Hnone.
        -- intros (t & Ht & Hokt). apply Htgt. exists t. split; [done|].
           destruct Hokt as [Hin|?]; [|by right].
           destruct (Honly1 t Hin) as [?| ->]; [by left|].
           destruct (hasNode g s') eqn:Hgs; [by left|]. right. by apply Hnew1.
      * unfold ensureNode in H1. rewrite Hs in H1. cbn [hasNode_of] in H1.
        destruct Hok as [Hin|Hne].
        -- rewrite Hin in H1. cbn [negb] in H1. discriminate.
        -- destruct (hasNode g s); cbn [negb] in H1; [discriminate|].
           pose proof (addNode_null_returns g s (determineNodeType (JString s)) Hne)
             as Hret.
           rewrite H1 in Hret. discriminate.
    + rewrite (ensureNode_invalid g (line_source feature) Hsrc). simpl. done.
Qed.

Lemma processLine_skips_or_throws_witness :
  processLine chain_graph []
    (mkFeature None (JString "connection_line") JUndefined
       (JString "wp_001") (JString "wp_002")) =
    (chain_graph, [], Throw TypeError) ∧
  (processLine chain_graph []
     (mkFeature (Some (mkGeometry (JString "LineString") JNull))
        (JString "connection_line") JUndefined (JString "wp_001") (JNumber 7))).2 =
    Throw (PathfindingError "Node ID must be a non-empty string" INVALID_NODE_ID) ∧
  (processLine chain_graph []
     (mkFeature (Some (mkGeometry (JString "LineString") JNull))
        (JString "connection_line") JUndefined (JString "wp_001") (JString nbsp_id))).2 =
    Throw (PathfindingError "Node ID must be a non-empty string" INVALID_NODE_ID).
Proof.
  split; [|split].
  - apply (proj1 (processLine_skips_or_throws chain_graph []
             (mkFeature None (JString "connection_line") JUndefined
                (JString "wp_001") (JString "wp_002")))).
    reflexivity.
  - apply (proj2 (proj2 (processLine_skips_or_throws chain_graph []
             (mkFeature (Some (mkGeometry (JString "LineString") JNull))
                (JString "connection_line") JUndefined (JString "wp_001") (JNumber 7))))
             (mkGeometry (JString "LineString") JNull)
             eq_refl eq_refl chain_graph_wf chain_graph_symmetric).
    intros [_ (id & Hid & _)]. discriminate Hid.
  - apply (proj2 (proj2 (processLine_skips_or_throws chain_graph []
             (mkFeature (Some (mkGeometry (JString "LineString") JNull))
                (JString "connection_line") JUndefined (JString "wp_001")
                (JString nbsp_id))))
             (mkGeometry (JString "LineString") JNull)
             eq_refl eq_refl chain_graph_wf chain_graph_symmetric).
    intros [_ (id & Hid & [Hin|Hne])].
    + injection Hid as <-.
      assert (hasNode chain_graph nbsp_id = false) as Hout by (vm_compute; reflexivity).
      rewrite Hout in Hin. discriminate Hin.
    + injection Hid as <-. apply Hne. vm_compute. reflexivity.
Defined.

Lemma addNode_good_coordinates g id type c :
  trim id ≠ "" → truthy c = false ∨ (isArray c = true ∧ array_length c = 2) →
  (addNode g (JString id) type c).2 = Return tt.
Proof.
  intros Hid Hc. unfold addNode. rewrite (trim_nonempty _ Hid).
  destruct Hc as [Hf|[Harr Hlen]].
  - rewrite Hf. simpl. by destruct (adjacencyList g !! id).
  - destruct c; try discriminate. simpl in Hlen. simpl. rewrite Hlen. simpl.
    by destruct (adjacencyList g !! id).
Qed.

Lemma addNode_bad_coordinates g id type c :
  trim id ≠ "" → truthy c = true → isArray c && (array_length c =? 2) = false →
  (addNode g (JString id) type c).2 =
    Throw (PathfindingError "Coordinates must be an array of [longitude, latitude]"
             INVALID_COORDINATES).
Proof.
  intros Hid Ht Hbad. unfold addNode. rewrite (trim_nonempty _ Hid), Ht.
  apply andb_false_iff in Hbad as [->| ->]; simpl; [done|]. by rewrite orb_true_r.
Qed.

(** A feature without geometry stops [_processPoints] with a [TypeError]. *)
Lemma processPoint_no_geometry g feature :
  geometry feature = None → processPoint g feature = (g, Throw TypeError).
Proof. unfold processPoint. by intros ->. Qed.

Lemma processPoints_geometry features :
  ∀ g g', _processPoints features g = (g', Return tt) →
          ∀ feature, feature ∈ features → geometry feature ≠ None.
Proof.
  induction features as [|f rest IH]; intros g g' H feature Hin.
  - by apply elem_of_nil in Hin.
  - cbn [_processPoints] in H.
    destruct (processPoint g f) as [g1 [[]|e]] eqn:Hf; [|discriminate].
    apply elem_of_cons in Hin as [->|Hin]; [|by eapply IH].
    intros Hnone. rewrite (processPoint_no_geometry _ _ Hnone) in Hf. discriminate.
Qed.

(** X25. [processPoint] on a feature with a [Point] geometry whose
    [alt_name] is a string with a character other than white space: the
    node gets type [WAYPOINT]
    when the feature is a [walking_grid_point], whatever its name, and the
    type that [determineNodeType] gives its name otherwise. With no
    coordinates or an array of two the call returns; with any other truthy
    coordinates, such as a position with a third component, it throws
    [INVALID_COORDINATES]. In both cases the id is a node afterwards. *)
Theorem processPoint_classifies g feature geo name :
  geometry feature = Some geo →
  is_literal (geometry_type geo) "Point" = true →
  alt_name feature = JString name → trim name ≠ "" →
  let type :=
    if is_literal (wayfinding_type feature) "walking_grid_point" then WAYPOINT
    else determineNodeType (JString name) in
  let c := geometry_coordinates geo in
  hasNode (processPoint g feature).1 name = true ∧
  getNodeType (processPoint g feature).1 name = type ∧
  (truthy c = false ∨ (isArray c = true ∧ array_length c = 2) →
   (processPoint g feature).2 = Return tt) ∧
  (truthy c = true → isArray c && (array_length c =? 2) = false →
   (processPoint g feature).2 =
     Throw (PathfindingError "Coordinates must be an array of [longitude, latitude]"
              INVALID_COORDINATES)).
Proof.
  intros Hgeo Hpoint Hname Hid type c.
  assert (processPoint g feature = addNode g (JString name) type c) as ->.
  { unfold processPoint. rewrite Hgeo, Hpoint, Hname, (trim_nonempty_truthy _ Hid).
    cbn [negb]. subst type c.
    destruct (is_literal (wayfinding_type feature) "walking_grid_point"); done. }
  assert (hasNode (addNode g (JString name) type c).1 name = true ∧
          getNodeType (addNode g (JString name) type c).1 name = type) as [Hhas Hty].
  { destruct (addNode g (JString name) type c) as [g' [[]|e]] eqn:Hadd.
    - assert ((addNode g (JString name) type c).2 = Return tt) as Hret
        by (by rewrite Hadd).
      destruct (addNode_returns _ _ _ _ Hret) as (Hn & Hty & _).
      rewrite Hadd in Hn, Hty. simpl in *. split.
      + apply hasNode_elem. rewrite Hn. by apply elem_of_union_l, elem_of_singleton.
      + unfold getNodeType. by rewrite Hty, lookup_insert_eq.
    - destruct (truthy c) eqn:Ht.
      + destruct (isArray c && (array_length c =? 2)) eqn:Hok.
        * apply andb_true_iff in Hok as [Harr Hlen]. apply Nat.eqb_eq in Hlen.
          pose proof (addNode_good_coordinates g name type c Hid
                        (or_intror (conj Harr Hlen))) as Hret.
          rewrite Hadd in Hret. discriminate.
        * pose proof (addNode_bad_coordinates g name type c Hid Ht Hok) as Hthrow.
          pose proof (addNode_throws_coordinates g name type c _ Hthrow) as Hg.
          rewrite Hadd in Hg. simpl in Hg. subst g'. simpl. split.
          -- apply hasNode_elem. simpl. by apply elem_of_union_l, elem_of_singleton.
          -- unfold getNodeType. simpl. by rewrite lookup_insert_eq.
      + pose proof (addNode_good_coordinates g name type c Hid (or_introl Ht)) as Hret.
        rewrite Hadd in Hret. discriminate. }
  split; [done|]. split; [done|]. split.
  - by apply addNode_good_coordinates.
  - by apply addNode_bad_coordinates.
Qed.

Lemma processPoint_classifies_witness :
  let geo := mkGeometry (JString "Point") (JArray [JNumber 1; JNumber 2; JNumber 3]) in
  let feature :=
    mkFeature (Some geo)
      (JString "walking_grid_point") (JString "di_box_by_name") JUndefined JUndefined in
  hasNode (processPoint empty_graph feature).1 "di_box_by_name" = true ∧
  getNodeType (processPoint empty_graph feature).1 "di_box_by_name" = WAYPOINT ∧
  (processPoint empty_graph feature).2 =
    Throw (PathfindingError "Coordinates must be an array of [longitude, latitude]"
             INVALID_COORDINATES).
Proof.
  intros geo feature.
  destruct (processPoint_classifies empty_graph feature geo "di_box_by_name"
              eq_refl eq_refl eq_refl
              ltac:(vm_compute; discriminate)) as (Hhas & Hty & _ & Hthrow).
  split; [exact Hhas|]. split; [exact Hty|]. apply Hthrow; reflexivity.
Defined.
